(** * googleauth: the service-to-scope registry of gogcli

    A shallow embedding of [internal/googleauth/service.go] together with
    the part of the Go standard library the file relies on ([unicode/utf8],
    [unicode], [strconv], [strings], [sort], [errors], [fmt.Errorf]), and the
    properties of the registry stated over that embedding. *)

From Stdlib Require Import ZArith Lia Ascii String.
From stdpp Require Import gmap strings list fin_maps sorting.

#[local] Set Warnings "-clear-no-such-hyp".


(** ** Go strings

    A Go [string] is an immutable sequence of bytes; it is modelled by
    [string], whose characters are the 256 byte values.  Byte and rune
    arithmetic is done in [Z]. *)

Definition rune := Z.

Definition byte_val (c : ascii) : Z := Z.of_N (N_of_ascii c).

(** The conversion [byte(z)] keeps the low eight bits. *)
Definition byte_of (z : Z) : ascii := ascii_of_N (Z.to_N (z mod 256)).

(** [s[i]]; the callers below only read inside the string. *)
Definition byte_at (s : string) (i : nat) : Z :=
  match String.get i s with
  | Some c => byte_val c
  | None => 0%Z
  end.

(** [s[n:]] and [s[:n]]. *)
Fixpoint string_drop (n : nat) (s : string) : string :=
  match n, s with
  | O, _ => s
  | S n', String _ s' => string_drop n' s'
  | S _, EmptyString => EmptyString
  end.

Fixpoint string_take (n : nat) (s : string) : string :=
  match n, s with
  | O, _ => EmptyString
  | S n', String c s' => String c (string_take n' s')
  | S _, EmptyString => EmptyString
  end.

Fixpoint string_map (f : ascii → ascii) (s : string) : string :=
  match s with
  | EmptyString => EmptyString
  | String c s' => String (f c) (string_map f s')
  end.

Fixpoint string_forallb (p : ascii → bool) (s : string) : bool :=
  match s with
  | EmptyString => true
  | String c s' => p c && string_forallb p s'
  end.

(** [strings.Contains(s, sub)]. *)
Fixpoint strings_Contains (s sub : string) : bool :=
  String.prefix sub s ||
  match s with
  | EmptyString => false
  | String _ s' => strings_Contains s' sub
  end.

(** ** Package [unicode/utf8] *)

Section utf8.
Local Open Scope Z_scope.

Definition RuneError : rune := 0xFFFD.
Definition RuneSelf : Z := 0x80.
Definition MaxRune : rune := 0x10FFFF.
Definition surrogateMin : rune := 0xD800.
Definition surrogateMax : rune := 0xDFFF.

(** The table [first]: the length of the sequence a leading byte
    announces ([0] for a byte that cannot start a sequence), and the
    range [acceptRanges] allows for the second byte. *)
Definition utf8_first_size (s0 : Z) : nat :=
  if s0 <? 0x80 then 1%nat
  else if s0 <? 0xC2 then 0%nat
  else if s0 <? 0xE0 then 2%nat
  else if s0 <? 0xF0 then 3%nat
  else if s0 <? 0xF5 then 4%nat
  else 0%nat.

Definition utf8_accept_lo (s0 : Z) : Z :=
  if s0 =? 0xE0 then 0xA0 else if s0 =? 0xF0 then 0x90 else 0x80.

Definition utf8_accept_hi (s0 : Z) : Z :=
  if s0 =? 0xED then 0x9F else if s0 =? 0xF4 then 0x8F else 0xBF.

(** [utf8.DecodeRuneInString]: the first rune of [s] and its width in
    bytes; [(RuneError, 1)] on an invalid or truncated sequence and
    [(RuneError, 0)] on the empty string.  The masks [s0&mask2],
    [s1&maskx], ... and the shifts are written as [mod] and
    multiplications by the matching powers of two. *)
Definition utf8_DecodeRuneInString (s : string) : rune * nat :=
  let n := String.length s in
  if (n <? 1)%nat then (RuneError, 0%nat)
  else
    let s0 := byte_at s 0 in
    let sz := utf8_first_size s0 in
    if (sz =? 1)%nat then (s0, 1%nat)
    else if (sz =? 0)%nat then (RuneError, 1%nat)
    else if (n <? sz)%nat then (RuneError, 1%nat)
    else
      let s1 := byte_at s 1 in
      if (s1 <? utf8_accept_lo s0) || (utf8_accept_hi s0 <? s1)
      then (RuneError, 1%nat)
      else if (sz <=? 2)%nat
      then ((s0 mod 32) * 64 + s1 mod 64, 2%nat)
      else
        let s2 := byte_at s 2 in
        if (s2 <? 0x80) || (0xBF <? s2) then (RuneError, 1%nat)
        else if (sz <=? 3)%nat
        then ((s0 mod 16) * 4096 + (s1 mod 64) * 64 + s2 mod 64, 3%nat)
        else
          let s3 := byte_at s 3 in
          if (s3 <? 0x80) || (0xBF <? s3) then (RuneError, 1%nat)
          else ((s0 mod 8) * 262144 + (s1 mod 64) * 4096
                + (s2 mod 64) * 64 + s3 mod 64, 4%nat).

(** [utf8.RuneStart]: [b&0xC0 != 0x80]. *)
Definition utf8_RuneStart (b : Z) : bool :=
  negb ((0x80 <=? b) && (b <? 0xC0)).

(** [utf8.DecodeLastRuneInString]: the last rune of [s] and its width.
    The Go loop walks back from [end-2] to [end-UTFMax] until it meets
    a byte that can start a sequence, decodes from there and accepts
    the result only when it reaches the end of the string. *)
Fixpoint utf8_lastStart (s : string) (start : nat) (steps : nat) {struct steps}
    : nat :=
  match steps with
  | O => start
  | S steps' =>
    if utf8_RuneStart (byte_at s start) then start
    else match start with
         | O => O
         | S start' => utf8_lastStart s start' steps'
         end
  end.

Definition utf8_DecodeLastRuneInString (s : string) : rune * nat :=
  let end_ := String.length s in
  if (end_ =? 0)%nat then (RuneError, 0%nat)
  else
    let r := byte_at s (end_ - 1) in
    if r <? RuneSelf then (r, 1%nat)
    else
      let start := utf8_lastStart s (end_ - 2) 3 in
      let '(r, size) := utf8_DecodeRuneInString (string_drop start s) in
      if (start + size =? end_)%nat then (r, size) else (RuneError, 1%nat).

(** [utf8.ValidRune]. *)
Definition utf8_ValidRune (r : rune) : bool :=
  ((0 <=? r) && (r <? surrogateMin)) || ((surrogateMax <? r) && (r <=? MaxRune)).

(** [utf8.AppendRune] on an empty buffer: the encoding of [r], with
    [RuneError] encoded for a rune out of range or a surrogate. *)
Definition utf8_encode3 (r : rune) : string :=
  String (byte_of (0xE0 + r / 4096))
    (String (byte_of (0x80 + (r / 64) mod 64))
      (String (byte_of (0x80 + r mod 64)) EmptyString)).

Definition utf8_EncodeRune (r : rune) : string :=
  if (0 <=? r) && (r <=? 0x7F) then String (byte_of r) EmptyString
  else if (0 <=? r) && (r <=? 0x7FF) then
    String (byte_of (0xC0 + r / 64))
      (String (byte_of (0x80 + r mod 64)) EmptyString)
  else if negb (utf8_ValidRune r) then utf8_encode3 RuneError
  else if r <=? 0xFFFF then utf8_encode3 r
  else
    String (byte_of (0xF0 + r / 262144))
      (String (byte_of (0x80 + (r / 4096) mod 64))
        (String (byte_of (0x80 + (r / 64) mod 64))
          (String (byte_of (0x80 + r mod 64)) EmptyString))).
End utf8.

(** ** Package [unicode]

    The case-mapping table [CaseRanges] and the printable-rune tables of
    [strconv] are data of the Unicode standard; the functions below take
    them through the class [UnicodeTables] and spell out everything the Go
    code decides without a table. *)

Class UnicodeTables := {
  (** [unicode.To(unicode.LowerCase, r)] *)
  LowerCase_table : rune → rune;
  (** the table part of [strconv.IsPrint], for runes above Latin-1 *)
  IsPrint_table : rune → bool
}.

Section unicode.
Context `{U : UnicodeTables}.
Local Open Scope Z_scope.

Definition MaxASCII : rune := 0x7F.
Definition MaxLatin1 : rune := 0xFF.

(** [unicode.ToLower]. *)
Definition unicode_ToLower (r : rune) : rune :=
  if r <=? MaxASCII then
    if (0x41 <=? r) && (r <=? 0x5A) then r + (0x61 - 0x41) else r
  else LowerCase_table r.

(** [unicode.IsSpace]: the switch on Latin-1, and the table
    [White_Space] (U+1680, U+2000..U+200A, U+2028, U+2029, U+202F,
    U+205F, U+3000) above it. *)
Definition unicode_IsSpace (r : rune) : bool :=
  if (0 <=? r) && (r <=? MaxLatin1) then
    ((0x09 <=? r) && (r <=? 0x0D)) || (r =? 0x20) || (r =? 0x85) || (r =? 0xA0)
  else
    (r =? 0x1680) || ((0x2000 <=? r) && (r <=? 0x200A))
    || (r =? 0x2028) || (r =? 0x2029) || (r =? 0x202F) || (r =? 0x205F)
    || (r =? 0x3000).

(** [strconv.IsPrint]. *)
Definition strconv_IsPrint (r : rune) : bool :=
  if r <=? 0xFF then
    if (0x20 <=? r) && (r <=? 0x7E) then true
    else if (0xA1 <=? r) && (r <=? 0xFF) then negb (r =? 0xAD)
    else false
  else IsPrint_table r.
End unicode.

(** What the parser needs of the case table, on Unicode scalar values:
    lower-casing twice is lower-casing once, a lower-cased rune is again a
    scalar value, and only white space lower-cases to white space. *)
Class UnicodeLaws (U : UnicodeTables) := {
  ToLower_idem : ∀ r, utf8_ValidRune r = true →
    unicode_ToLower (unicode_ToLower r) = unicode_ToLower r;
  ToLower_valid : ∀ r, utf8_ValidRune r = true →
    utf8_ValidRune (unicode_ToLower r) = true;
  ToLower_space : ∀ r, utf8_ValidRune r = true →
    unicode_IsSpace (unicode_ToLower r) = true → unicode_IsSpace r = true
}.

(** The tables restricted to what Go decides without them: no case pair
    and no printable rune above Latin-1. *)
Definition latin1Tables : UnicodeTables :=
  {| LowerCase_table := λ r, r; IsPrint_table := λ _, false |}.

(** ** Package [strings] *)

Section strings.
Context `{U : UnicodeTables}.
Local Open Scope Z_scope.

(** [strings.Map]: decode rune by rune (an invalid byte decodes to
    [RuneError] with width 1), drop the runes mapped to a negative
    value and encode the others.  [fuel] bounds the number of runes. *)
Fixpoint strings_Map_loop (fuel : nat) (mapping : rune → rune) (s : string)
    : string :=
  match fuel with
  | O => EmptyString
  | S fuel' =>
    if (String.length s =? 0)%nat then EmptyString
    else
      let '(c, width) := utf8_DecodeRuneInString s in
      let r := mapping c in
      (if 0 <=? r then utf8_EncodeRune r else EmptyString)
      +:+ strings_Map_loop fuel' mapping (string_drop width s)
  end.

Definition strings_Map (mapping : rune → rune) (s : string) : string :=
  strings_Map_loop (String.length s) mapping s.

(** [strings.ToLower]: ASCII-only strings are handled byte by byte,
    the others go through [Map(unicode.ToLower, s)]. *)
Definition isASCII (s : string) : bool :=
  string_forallb (λ c, byte_val c <? RuneSelf) s.

Definition hasUpper (s : string) : bool :=
  negb (string_forallb (λ c, negb ((0x41 <=? byte_val c) && (byte_val c <=? 0x5A))) s).

Definition ascii_lower (c : ascii) : ascii :=
  if (0x41 <=? byte_val c) && (byte_val c <=? 0x5A)
  then byte_of (byte_val c + (0x61 - 0x41)) else c.

Definition strings_ToLower (s : string) : string :=
  if isASCII s then
    if negb (hasUpper s) then s else string_map ascii_lower s
  else strings_Map unicode_ToLower s.

(** [strings.TrimLeftFunc(s, unicode.IsSpace)]: runes are decoded from
    the front while they are white space. *)
Fixpoint TrimLeft_loop (fuel : nat) (s : string) : string :=
  match fuel with
  | O => s
  | S fuel' =>
    if (String.length s =? 0)%nat then s
    else
      let '(r, width) := utf8_DecodeRuneInString s in
      if unicode_IsSpace r then TrimLeft_loop fuel' (string_drop width s)
      else s
  end.

Definition strings_TrimLeftSpace (s : string) : string :=
  TrimLeft_loop (String.length s) s.

(** [strings.TrimRightFunc(s, unicode.IsSpace)]: runes are decoded from
    the back while they are white space. *)
Fixpoint TrimRight_loop (fuel : nat) (s : string) : string :=
  match fuel with
  | O => s
  | S fuel' =>
    if (String.length s =? 0)%nat then s
    else
      let '(r, size) := utf8_DecodeLastRuneInString s in
      if unicode_IsSpace r
      then TrimRight_loop fuel' (string_take (String.length s - size) s)
      else s
  end.

Definition strings_TrimRightSpace (s : string) : string :=
  TrimRight_loop (String.length s) s.

(** [strings.TrimSpace]: leading and trailing white space, as defined
    by Unicode, removed.  (The Go implementation first skips ASCII
    white space byte by byte and falls back to the two functions above
    at the first non-ASCII byte; the slice it returns is the same.) *)
Definition strings_TrimSpace (s : string) : string :=
  strings_TrimRightSpace (strings_TrimLeftSpace s).

(** [strings.Join]. *)
Definition strings_Join (elems : list string) (sep : string) : string :=
  match elems with
  | [] => EmptyString
  | e :: rest => foldl (λ b s, b +:+ sep +:+ s) e rest
  end.
End strings.

(** ** Package [strconv]: [Quote], the verb [%q] of [fmt] *)

Section strconv.
Context `{U : UnicodeTables}.
Local Open Scope Z_scope.

(** [lowerhex[d]] for [0 <= d < 16]. *)
Definition lowerhex (d : Z) : ascii :=
  if d <? 10 then byte_of (0x30 + d) else byte_of (0x61 + (d - 10)).

(** The digits [lowerhex[r>>s&0xF]] for [s = 4*(n-1), ..., 4, 0]. *)
Fixpoint hex_digits (n : nat) (r : Z) : string :=
  match n with
  | O => EmptyString
  | S n' => String (lowerhex ((r / 16 ^ Z.of_nat n') mod 16)) (hex_digits n' r)
  end.

Definition backslash : ascii := byte_of 0x5C.
Definition dquote : ascii := byte_of 0x22.

Definition escape (c : string) : string := String backslash c.

(** [strconv.appendEscapedRune] with the double quote as [quote] and
    [ASCIIonly], [graphicOnly] false. *)
Definition appendEscapedRune (r : rune) : string :=
  if (r =? 0x22) || (r =? 0x5C) then escape (String (byte_of r) EmptyString)
  else if strconv_IsPrint r then utf8_EncodeRune r
  else if r =? 0x07 then escape "a"
  else if r =? 0x08 then escape "b"
  else if r =? 0x0C then escape "f"
  else if r =? 0x0A then escape "n"
  else if r =? 0x0D then escape "r"
  else if r =? 0x09 then escape "t"
  else if r =? 0x0B then escape "v"
  else if (r <? 0x20) || (r =? 0x7F) then escape ("x" +:+ hex_digits 2 r)
  else if negb (utf8_ValidRune r) then escape ("u" +:+ hex_digits 4 0xFFFD)
  else if r <? 0x10000 then escape ("u" +:+ hex_digits 4 r)
  else escape ("U" +:+ hex_digits 8 r).

(** The loop of [strconv.appendQuotedWith]. *)
Fixpoint Quote_loop (fuel : nat) (s : string) : string :=
  match fuel with
  | O => EmptyString
  | S fuel' =>
    if (String.length s =? 0)%nat then EmptyString
    else
      let r0 := byte_at s 0 in
      let '(r, width) :=
        if RuneSelf <=? r0 then utf8_DecodeRuneInString s else (r0, 1%nat) in
      (if (width =? 1)%nat && (r =? RuneError)
       then escape ("x" +:+ hex_digits 2 r0)
       else appendEscapedRune r)
      +:+ Quote_loop fuel' (string_drop width s)
  end.

Definition strconv_Quote (s : string) : string :=
  String dquote (Quote_loop (String.length s) s) +:+ String dquote EmptyString.
End strconv.

(** ** Package [sort]

    [sort.Strings] sorts in increasing order of Go's [<] on strings, the
    byte-wise lexicographic order [String.le]. *)
Definition sort_Strings (x : list string) : list string :=
  merge_sort String.le x.

(** ** Package [errors] and [fmt.Errorf]

    An error value is either made by [errors.New] or made by [fmt.Errorf]
    with one [%w] operand, which it wraps; [None] is the nil error. *)
Inductive err : Type :=
  | errorString (msg : string)
  | wrapError (msg : string) (wrapped : err).

Definition error := option err.

Definition errors_New (text : string) : err := errorString text.

(** The method [Error()]. *)
Definition Error (e : err) : string :=
  match e with
  | errorString msg => msg
  | wrapError msg _ => msg
  end.

Global Instance err_eq_dec : EqDecision err.
Proof. solve_decision. Defined.

(** [errors.Is]: [e] or an error it wraps is [target]. *)
Fixpoint errors_Is (e target : err) : bool :=
  bool_decide (e = target) ||
  match e with
  | errorString _ => false
  | wrapError _ wrapped => errors_Is wrapped target
  end.

(** ** Go maps used as sets

    [map[string]struct{}] is a finite set of strings.  The order in which
    [for s := range set] visits the keys is not specified by the
    language and changes from one run to the next; a [MapRange] is one
    such order.  Every function that ranges over a map takes it as an
    argument, and the theorems hold for all of them. *)
Record MapRange := {
  range_keys : gset string → list string;
  range_keys_perm : ∀ set, range_keys set ≡ₚ elements set
}.

(** One iteration order, to run the functions. *)
Definition elementsRange : MapRange :=
  {| range_keys := elements; range_keys_perm := λ _, reflexivity _ |}.

(** * Package [googleauth] *)

(** [type Service string] *)
Abbreviation Service := string.

Definition ServiceGmail : Service := "gmail".
Definition ServiceCalendar : Service := "calendar".
Definition ServiceDrive : Service := "drive".
Definition ServiceDocs : Service := "docs".
Definition ServiceContacts : Service := "contacts".
Definition ServiceTasks : Service := "tasks".
Definition ServicePeople : Service := "people".
Definition ServiceSheets : Service := "sheets".
Definition ServiceGroups : Service := "groups".
Definition ServiceKeep : Service := "keep".

Definition scopeOpenID : string := "openid".
Definition scopeEmail : string := "email".
Definition scopeUserinfoEmail : string :=
  "https://www.googleapis.com/auth/userinfo.email".

Definition errUnknownService : err := errors_New "unknown service".

Record serviceInfo := {
  scopes : list string;
  user : bool;
  apis : list string;
  note : string
}.

Definition serviceOrder : list Service := [
  ServiceGmail;
  ServiceCalendar;
  ServiceDrive;
  ServiceDocs;
  ServiceContacts;
  ServiceTasks;
  ServiceSheets;
  ServicePeople;
  ServiceGroups;
  ServiceKeep
].

Definition serviceInfoByService : gmap Service serviceInfo :=
  list_to_map [
    (ServiceGmail,
     {| scopes := [
          "https://mail.google.com/";
          "https://www.googleapis.com/auth/gmail.settings.basic"
        ];
        user := true;
        apis := ["Gmail API"];
        note := "" |});
    (ServiceCalendar,
     {| scopes := ["https://www.googleapis.com/auth/calendar"];
        user := true;
        apis := ["Calendar API"];
        note := "" |});
    (ServiceDrive,
     {| scopes := ["https://www.googleapis.com/auth/drive"];
        user := true;
        apis := ["Drive API"];
        note := "" |});
    (ServiceDocs,
     {| scopes := [
          "https://www.googleapis.com/auth/drive";
          "https://www.googleapis.com/auth/documents"
        ];
        user := true;
        apis := ["Docs API"; "Drive API"];
        note := "Export/copy/create via Drive" |});
    (ServiceContacts,
     {| scopes := [
          "https://www.googleapis.com/auth/contacts";
          "https://www.googleapis.com/auth/contacts.other.readonly";
          "https://www.googleapis.com/auth/directory.readonly"
        ];
        user := true;
        apis := ["People API"];
        note := "Contacts + other contacts + directory" |});
    (ServiceTasks,
     {| scopes := ["https://www.googleapis.com/auth/tasks"];
        user := true;
        apis := ["Tasks API"];
        note := "" |});
    (ServicePeople,
     {| scopes := ["profile"];
        user := true;
        apis := ["People API"];
        note := "OIDC profile scope" |});
    (ServiceSheets,
     {| scopes := ["https://www.googleapis.com/auth/spreadsheets"];
        user := true;
        apis := ["Sheets API"; "Drive API"];
        note := "Export via Drive" |});
    (ServiceGroups,
     {| scopes := ["https://www.googleapis.com/auth/cloud-identity.groups.readonly"];
        user := false;
        apis := ["Cloud Identity API"];
        note := "Workspace only" |});
    (ServiceKeep,
     {| scopes := ["https://www.googleapis.com/auth/keep"];
        user := false;
        apis := ["Keep API"];
        note := "Workspace only; service account" |})
  ].

Definition AllServices : list Service := serviceOrder.

Definition serviceNames (services : list Service) (sep : string) : string :=
  let names := foldl (λ names svc, names ++ [svc]) [] services in
  strings_Join names sep.

(** [fmt.Errorf("%w %q (expected %s)", e, q, s)]: [%w] prints [e.Error()]
    and makes the result wrap [e], [%q] prints [strconv.Quote(q)]. *)
Definition fmt_Errorf_w_q_expected `{UnicodeTables} (e : err) (q s : string)
    : err :=
  wrapError (Error e +:+ " " +:+ strconv_Quote q +:+ " (expected " +:+ s +:+ ")") e.

Definition ParseService `{UnicodeTables} (s : string) : Service * error :=
  let parsed : Service := strings_ToLower (strings_TrimSpace s) in
  match serviceInfoByService !! parsed with
  | Some _ => (parsed, None)
  | None =>
    ("", Some (fmt_Errorf_w_q_expected errUnknownService s
                 (serviceNames AllServices "|")))
  end.

(** [include] is a Go function value; [None] is the nil function. *)
Definition filteredServices (include : option (serviceInfo → bool))
    : list Service :=
  foldl (λ out svc,
    match serviceInfoByService !! svc with
    | None => out
    | Some info =>
      match include with
      | None => out ++ [svc]
      | Some f => if f info then out ++ [svc] else out
      end
    end) [] serviceOrder.

Definition UserServices : list Service :=
  filteredServices (Some (λ info, user info)).

Definition Scopes (service : Service) : list string * error :=
  match serviceInfoByService !! service with
  | None => ([], Some errUnknownService)
  | Some info => ([] ++ scopes info, None)
  end.

Record ServiceInfo := {
  Info_Service : Service;
  Info_User : bool;
  Info_Scopes : list string;
  Info_APIs : list string;
  Info_Note : string
}.

Definition ServicesInfo : list ServiceInfo :=
  foldl (λ out svc,
    match serviceInfoByService !! svc with
    | None => out
    | Some info =>
      out ++ [{| Info_Service := svc;
                 Info_User := user info;
                 Info_Scopes := [] ++ scopes info;
                 Info_APIs := [] ++ apis info;
                 Info_Note := note info |}]
    end) [] serviceOrder.

Definition markdownScopes (scopes : list string) : string :=
  if (length scopes =? 0)%nat then ""
  else
    let parts := foldl (λ parts scope, parts ++ ["`" +:+ scope +:+ "`"]) [] scopes in
    strings_Join parts "<br>".

(** The [strings.Builder] is the string written so far. *)
Definition ServicesMarkdown (infos : list ServiceInfo) : string :=
  if (length infos =? 0)%nat then ""
  else
    let b := "" in
    let b := b +:+ "| Service | User | APIs | Scopes | Notes |
" in
    let b := b +:+ "| --- | --- | --- | --- | --- |
" in
    foldl (λ b info,
      let userLabel := if Info_User info then "yes" else "no" in
      let b := b +:+ "| " in
      let b := b +:+ Info_Service info in
      let b := b +:+ " | " in
      let b := b +:+ userLabel in
      let b := b +:+ " | " in
      let b := b +:+ strings_Join (Info_APIs info) ", " in
      let b := b +:+ " | " in
      let b := b +:+ markdownScopes (Info_Scopes info) in
      let b := b +:+ " | " in
      let b := b +:+ Info_Note info in
      b +:+ " |
") b infos.

(** The first loop of [ScopesForServices]: the set of scopes collected
    so far, or the error that ends the function. *)
Fixpoint ScopesForServices_loop (set : gset string) (services : list Service)
    : gset string + err :=
  match services with
  | [] => inl set
  | svc :: rest =>
    match Scopes svc with
    | (_, Some e) => inr e
    | (scopes, None) =>
      ScopesForServices_loop (foldl (λ set s, {[ s ]} ∪ set) set scopes) rest
    end
  end.

Definition ScopesForServices (it : MapRange) (services : list Service)
    : list string * error :=
  match ScopesForServices_loop ∅ services with
  | inr e => ([], Some e)
  | inl set =>
    let out := foldl (λ out s, out ++ [s]) [] (range_keys it set) in
    (sort_Strings out, None)
  end.

Definition mergeScopes (it : MapRange) (scopes extras : list string)
    : list string :=
  let add := λ (set : gset string) (s : string),
    if bool_decide (s = "") then set else {[ s ]} ∪ set in
  let set := foldl add ∅ scopes in
  let set := foldl add set extras in
  let out := foldl (λ out s, out ++ [s]) [] (range_keys it set) in
  sort_Strings out.

Definition ScopesForManage (it : MapRange) (services : list Service)
    : list string * error :=
  match ScopesForServices it services with
  | (_, Some e) => ([], Some e)
  | (scopes, None) =>
    (mergeScopes it scopes [scopeOpenID; scopeEmail; scopeUserinfoEmail], None)
  end.

Definition UserServiceCSV : string := serviceNames UserServices ",".

(** ** Vocabulary of the statements *)

(** A service identifier is registered when the table has a record for it. *)
Definition registered (svc : Service) : Prop :=
  is_Some (serviceInfoByService !! svc).

(** The scopes the table declares for [svc]; none when it is unknown. *)
Definition declaredScopes (svc : Service) : list string :=
  match serviceInfoByService !! svc with
  | Some info => scopes info
  | None => []
  end.

(** Go's [<] on strings. *)
Definition string_lt (s1 s2 : string) : Prop := String.ltb s1 s2 = true.

Definition identityScopes : list string :=
  [scopeOpenID; scopeEmail; scopeUserinfoEmail].

(** What [filteredServices] decides for one identifier of the order. *)
Definition included (include : option (serviceInfo → bool)) (svc : Service)
    : bool :=
  match serviceInfoByService !! svc with
  | None => false
  | Some info =>
    match include with
    | None => true
    | Some f => f info
    end
  end.

(** The two header lines of the table and the line of one view, written
    with [String.concat], the join of a list of strings with a separator. *)
Definition markdownHeader : string :=
  "| Service | User | APIs | Scopes | Notes |
| --- | --- | --- | --- | --- |
".

Definition markdownRow (info : ServiceInfo) : string :=
  "| " +:+ Info_Service info
  +:+ " | " +:+ (if Info_User info then "yes" else "no")
  +:+ " | " +:+ String.concat ", " (Info_APIs info)
  +:+ " | " +:+ String.concat "<br>" ((λ scope, "`" +:+ scope +:+ "`") <$> Info_Scopes info)
  +:+ " | " +:+ Info_Note info
  +:+ " |
".


(** A continuation byte of a UTF-8 sequence. *)
Definition continuation (b : Z) : Prop := (0x80 <= b < 0xC0)%Z.

(** The concatenation of the encodings of a list of runes. *)
Definition encodeAll (ds : list rune) : string :=
  foldr (λ d acc, utf8_EncodeRune d +:+ acc) "" ds.

(** [t] ends with the encoding of a white-space rune. *)
Definition ends_with_space (t : string) : Prop :=
  ∃ x c, t = x +:+ utf8_EncodeRune c
         ∧ utf8_ValidRune c = true ∧ unicode_IsSpace c = true.

(** The view [ServicesInfo] builds from an identifier and its record. *)
Definition serviceView (svc : Service) (info : serviceInfo) : ServiceInfo :=
  {| Info_Service := svc;
     Info_User := user info;
     Info_Scopes := scopes info;
     Info_APIs := apis info;
     Info_Note := note info |}.

(** The line feed, and the number of occurrences of a byte in a string. *)
Definition newline : ascii := byte_of 0x0A.

Fixpoint count_byte (c : ascii) (s : string) : nat :=
  match s with
  | EmptyString => 0
  | String c' s' => (if Ascii.eqb c' c then 1 else 0) + count_byte c s'
  end.

(** A string without line feed; a view whose fields are such strings. *)
Definition single_line (s : string) : bool :=
  string_forallb (λ c, negb (Ascii.eqb c newline)) s.

Definition view_single_line (info : ServiceInfo) : bool :=
  single_line (Info_Service info)
  && forallb single_line (Info_APIs info)
  && forallb single_line (Info_Scopes info)
  && single_line (Info_Note info).

(** The ASCII white space: tab, line feed, vertical tab, form feed,
    carriage return and space. *)
Definition ascii_white (c : ascii) : bool :=
  (((0x09 <=? byte_val c) && (byte_val c <=? 0x0D)) || (byte_val c =? 0x20))%Z.

(** * Properties *)

(** ** The tests of the package

    The cases of [service_test.go], run on the embedding; they hold for
    every choice of the Unicode tables. *)

Section tests.
Context `{U : UnicodeTables}.

Example TestParseService :
  Forall (λ tt : string * Service, ParseService tt.1 = (tt.2, None))
    [("gmail", ServiceGmail); ("GMAIL", ServiceGmail);
     ("calendar", ServiceCalendar); ("drive", ServiceDrive);
     ("docs", ServiceDocs); ("contacts", ServiceContacts);
     ("tasks", ServiceTasks); ("people", ServicePeople);
     ("sheets", ServiceSheets); ("groups", ServiceGroups);
     ("keep", ServiceKeep)].
Proof. repeat constructor. Qed.

Example TestParseService_Invalid : is_Some (snd (ParseService "nope")).
Proof. by eexists. Qed.

Example TestAllServices :
  length AllServices = 10
  ∧ Forall (λ want, want ∈ AllServices)
      [ServiceGmail; ServiceCalendar; ServiceDrive; ServiceDocs;
       ServiceContacts; ServiceTasks; ServicePeople; ServiceSheets;
       ServiceGroups; ServiceKeep].
Proof. split; [done|]. repeat constructor; set_solver. Qed.

Example TestUserServices :
  length UserServices = 8 ∧ ServiceDocs ∈ UserServices
  ∧ ServiceKeep ∉ UserServices.
Proof. vm_compute. split; [done|]. split; set_solver. Qed.

Example TestUserServiceCSV :
  UserServiceCSV = "gmail,calendar,drive,docs,contacts,tasks,sheets,people".
Proof. reflexivity. Qed.

Example TestServicesInfo_Metadata :
  length ServicesInfo = length serviceOrder
  ∧ (∃ docsInfo, docsInfo ∈ ServicesInfo
       ∧ Info_Service docsInfo = ServiceDocs
       ∧ Info_APIs docsInfo ≠ []
       ∧ "https://www.googleapis.com/auth/drive" ∈ Info_Scopes docsInfo
       ∧ "https://www.googleapis.com/auth/documents" ∈ Info_Scopes docsInfo)
  ∧ ServicesMarkdown ServicesInfo ≠ "".
Proof.
  split; [done|]. split; [|done].
  exists {| Info_Service := ServiceDocs; Info_User := true;
            Info_Scopes := ["https://www.googleapis.com/auth/drive";
                            "https://www.googleapis.com/auth/documents"];
            Info_APIs := ["Docs API"; "Drive API"];
            Info_Note := "Export/copy/create via Drive" |}.
  vm_compute. repeat split; try done; set_solver.
Qed.

Example TestScopesForServices_UnionSorted :
  ScopesForServices elementsRange
    [ServiceContacts; ServiceGmail; ServiceTasks; ServicePeople; ServiceContacts]
  = (["https://mail.google.com/";
      "https://www.googleapis.com/auth/contacts";
      "https://www.googleapis.com/auth/contacts.other.readonly";
      "https://www.googleapis.com/auth/directory.readonly";
      "https://www.googleapis.com/auth/gmail.settings.basic";
      "https://www.googleapis.com/auth/tasks";
      "profile"], None).
Proof. by vm_compute. Qed.

Example TestScopes_DocsIncludesDriveAndDocsScopes :
  Scopes ServiceDocs
  = (["https://www.googleapis.com/auth/drive";
      "https://www.googleapis.com/auth/documents"], None).
Proof. reflexivity. Qed.

Example TestScopes_UnknownService : is_Some (snd (Scopes "nope")).
Proof. by eexists. Qed.
End tests.

(** ** Strings *)

Lemma string_app_cons (c : ascii) (s t : string) :
  String c s +:+ t = String c (s +:+ t).
Proof. reflexivity. Qed.

Lemma string_app_nil_l (s : string) : "" +:+ s = s.
Proof. reflexivity. Qed.

Lemma string_app_nil_r (s : string) : s +:+ "" = s.
Proof. induction s as [|c s IH]; [done|]. by rewrite string_app_cons, IH. Qed.

Lemma string_app_assoc (s t u : string) : (s +:+ t) +:+ u = s +:+ (t +:+ u).
Proof. induction s as [|c s IH]; [done|]. by rewrite !string_app_cons, IH. Qed.

Lemma string_app_length (s t : string) :
  String.length (s +:+ t) = (String.length s + String.length t)%nat.
Proof. induction s as [|c s IH]; [done|]. rewrite string_app_cons. simpl. by rewrite IH. Qed.

Lemma string_concat_empty_cons (x : string) (l : list string) :
  String.concat "" (x :: l) = x +:+ String.concat "" l.
Proof. destruct l; simpl; [by rewrite string_app_nil_r|done]. Qed.

(** [strings.Join] is the join of the list with the separator. *)
Lemma strings_Join_concat (elems : list string) (sep : string) :
  strings_Join elems sep = String.concat sep elems.
Proof.
  destruct elems as [|e rest]; [done|]. simpl.
  revert e. induction rest as [|x rest IH]; intros e; [done|].
  simpl foldl. rewrite IH. destruct rest as [|y rest]; simpl.
  - done.
  - by rewrite !string_app_assoc.
Qed.

(** ** Bytes and UTF-8 *)

Ltac zlia := Z.to_euclidean_division_equations; lia.

(** Decide the integer comparisons of the goal that arithmetic settles;
    [zcmp] splits on the others. *)
Ltac zdecide_step :=
  first
    [ match goal with
      | |- context [Z.ltb ?a ?b] =>
        first [ rewrite (proj2 (Z.ltb_lt a b)) by zlia
              | rewrite (proj2 (Z.ltb_ge a b)) by zlia ]
      | |- context [Z.leb ?a ?b] =>
        first [ rewrite (proj2 (Z.leb_le a b)) by zlia
              | rewrite (proj2 (Z.leb_gt a b)) by zlia ]
      | |- context [Z.eqb ?a ?b] =>
        first [ rewrite (proj2 (Z.eqb_eq a b)) by zlia
              | rewrite (proj2 (Z.eqb_neq a b)) by zlia ]
      end
    | progress cbn [andb orb negb Nat.ltb Nat.leb Nat.eqb] ].

Ltac zdecide := repeat zdecide_step.

Ltac zcmp :=
  repeat first
    [ zdecide_step
    | match goal with
      | |- context [Z.eqb ?a ?b] => destruct (Z.eqb_spec a b)
      | |- context [Z.ltb ?a ?b] => destruct (Z.ltb_spec a b)
      | |- context [Z.leb ?a ?b] => destruct (Z.leb_spec a b)
      end ].

Lemma byte_val_range (c : ascii) : (0 <= byte_val c < 256)%Z.
Proof.
  unfold byte_val. pose proof (N_ascii_bounded c). lia.
Qed.

Lemma byte_val_of (z : Z) : (0 <= z < 256)%Z → byte_val (byte_of z) = z.
Proof.
  intros Hz. unfold byte_val, byte_of. rewrite Z.mod_small by lia.
  rewrite N_ascii_embedding by lia. lia.
Qed.

Lemma byte_of_val (c : ascii) : byte_of (byte_val c) = c.
Proof.
  unfold byte_of. rewrite Z.mod_small by apply byte_val_range.
  unfold byte_val. by rewrite N2Z.id, ascii_N_embedding.
Qed.

Lemma byte_at_0 (c : ascii) (s : string) : byte_at (String c s) 0 = byte_val c.
Proof. reflexivity. Qed.

Lemma byte_at_S (c : ascii) (s : string) (i : nat) :
  byte_at (String c s) (S i) = byte_at s i.
Proof. reflexivity. Qed.

Section utf8_facts.
Local Open Scope Z_scope.

Lemma utf8_EncodeRune_length (d : rune) :
  (1 <= String.length (utf8_EncodeRune d) <= 4)%nat.
Proof.
  unfold utf8_EncodeRune, utf8_encode3.
  repeat case_match; simpl; lia.
Qed.

(** Decoding an encoded scalar value gives it back, whatever follows. *)
Lemma utf8_Decode_Encode (d : rune) (rest : string) :
  utf8_ValidRune d = true →
  utf8_DecodeRuneInString (utf8_EncodeRune d +:+ rest)
  = (d, String.length (utf8_EncodeRune d)).
Proof.
  unfold utf8_ValidRune, surrogateMin, surrogateMax, MaxRune. intros Hv.
  assert (0 <= d < 0xD800 ∨ 0xDFFF < d <= 0x10FFFF) as Hd by lia. clear Hv.
  unfold utf8_EncodeRune, utf8_ValidRune, surrogateMin, surrogateMax, MaxRune,
    utf8_encode3.
  assert (d <= 0x7F ∨ 0x7F < d <= 0x7FF ∨ 0x7FF < d <= 0xFFFF ∨ 0xFFFF < d)
    as Hcase by lia.
  destruct Hd as [Hd|Hd], Hcase as [H|[H|[H|H]]]; try (exfalso; lia);
    zcmp; rewrite !string_app_cons;
    unfold utf8_DecodeRuneInString; cbn [String.length];
    rewrite ?byte_at_S, ?byte_at_0, ?byte_val_of by zlia;
    unfold utf8_first_size, utf8_accept_lo, utf8_accept_hi; zcmp;
    f_equal; zlia.
Qed.

Lemma byte_eq_of (c : ascii) (z : Z) : byte_val c = z → c = byte_of z.
Proof. intros <-. by rewrite byte_of_val. Qed.

(** A rune that was decoded from a well-formed sequence is a scalar
    value, and the bytes it was decoded from are its encoding. *)
Lemma utf8_Encode_Decode (s : string) (c : rune) (w : nat) :
  s ≠ "" →
  utf8_DecodeRuneInString s = (c, w) →
  (w ≠ 1%nat ∨ c ≠ RuneError) →
  utf8_ValidRune c = true
  ∧ s = utf8_EncodeRune c +:+ string_drop w s
  ∧ w = String.length (utf8_EncodeRune c).
Proof.
  intros Hne. destruct s as [|c0 s]; [done|]. clear Hne.
  pose proof (byte_val_range c0) as H0.
  unfold utf8_DecodeRuneInString.
  destruct s as [|c1 [|c2 [|c3 s]]];
    try pose proof (byte_val_range c1) as H1;
    try pose proof (byte_val_range c2) as H2;
    try pose proof (byte_val_range c3) as H3;
    cbn [String.length]; rewrite ?byte_at_S, ?byte_at_0;
    unfold utf8_first_size, utf8_accept_lo, utf8_accept_hi, RuneError;
    zcmp; intros [= <- <-] [Hw|Hc]; try done;
    unfold utf8_ValidRune, utf8_EncodeRune, utf8_encode3, utf8_ValidRune,
      surrogateMin, surrogateMax, MaxRune;
    zcmp; rewrite ?string_app_cons; cbn [string_drop String.length];
    (split; [done|split; [|done]]);
    repeat (f_equal; try (apply byte_eq_of; zlia)).
Qed.

(** Every decoded rune is a scalar value. *)
Lemma utf8_Decode_valid (s : string) :
  utf8_ValidRune (fst (utf8_DecodeRuneInString s)) = true.
Proof.
  destruct (utf8_DecodeRuneInString s) as [c w] eqn:E.
  destruct (decide (s = "")) as [->|Hne]; [by inv E|].
  destruct (decide (w = 1%nat ∧ c = RuneError)) as [[-> ->]|Hn]; [done|].
  apply (utf8_Encode_Decode s c w Hne E).
  destruct (decide (w = 1%nat)); [right|left]; naive_solver.
Qed.

Lemma utf8_Decode_width (s : string) :
  s ≠ "" → (1 <= snd (utf8_DecodeRuneInString s) <= String.length s)%nat.
Proof.
  intros Hne. destruct (utf8_DecodeRuneInString s) as [c w] eqn:E.
  destruct (decide (w = 1%nat)) as [->|Hw].
  - destruct s; [done|]. simpl. lia.
  - destruct (utf8_Encode_Decode s c w Hne E) as (_ & Hs & ->); [by left|].
    pose proof (utf8_EncodeRune_length c). simpl.
    apply (f_equal String.length) in Hs. rewrite string_app_length in Hs. lia.
Qed.

Lemma byte_at_app_r (x e : string) (i n : nat) :
  n = (String.length x + i)%nat → byte_at (x +:+ e) n = byte_at e i.
Proof.
  intros ->. induction x as [|c x IH]; [done|].
  rewrite string_app_cons. cbn [String.length Nat.add]. by rewrite byte_at_S.
Qed.

Lemma string_drop_app (x e : string) :
  string_drop (String.length x) (x +:+ e) = e.
Proof. induction x as [|c x IH]; [done|]. by rewrite string_app_cons. Qed.

Lemma string_take_app (x e : string) :
  string_take (String.length x) (x +:+ e) = x.
Proof.
  induction x as [|c x IH]; [done|]. rewrite string_app_cons. simpl.
  by rewrite IH.
Qed.

Lemma string_take_drop (n : nat) (s : string) :
  string_take n s +:+ string_drop n s = s.
Proof.
  revert s. induction n as [|n IH]; intros [|c s]; try done.
  simpl. by rewrite string_app_cons, IH.
Qed.

Lemma string_drop_length (n : nat) (s : string) :
  String.length (string_drop n s) = (String.length s - n)%nat.
Proof. revert s. induction n as [|n IH]; intros [|c s]; simpl; auto. Qed.

Lemma string_take_length (n : nat) (s : string) :
  (n <= String.length s)%nat → String.length (string_take n s) = n.
Proof.
  revert s. induction n as [|n IH]; intros [|c s]; simpl; try lia.
  intros H. rewrite IH; lia.
Qed.

Lemma string_length_0 (s : string) : String.length s = 0%nat → s = "".
Proof. by destruct s. Qed.

(** The shape of an encoding: one byte below [RuneSelf], or a byte that
    starts a sequence followed by one to three continuation bytes. *)

Lemma utf8_RuneStart_continuation (b : Z) :
  continuation b → utf8_RuneStart b = false.
Proof. unfold continuation, utf8_RuneStart. intros H. by zcmp. Qed.

Lemma utf8_EncodeRune_shape (d : rune) :
  utf8_ValidRune d = true →
  let e := utf8_EncodeRune d in
  (String.length e = 1%nat ∧ byte_at e 0 = d ∧ d < RuneSelf)
  ∨ (RuneSelf <= d ∧ utf8_RuneStart (byte_at e 0) = true
     ∧ continuation (byte_at e (String.length e - 1))
     ∧ (String.length e = 2%nat
        ∨ (String.length e = 3%nat ∧ continuation (byte_at e 1))
        ∨ (String.length e = 4%nat ∧ continuation (byte_at e 1)
           ∧ continuation (byte_at e 2)))).
Proof.
  unfold utf8_ValidRune, surrogateMin, surrogateMax, MaxRune, RuneSelf.
  intros Hv.
  assert (0 <= d < 0xD800 ∨ 0xDFFF < d <= 0x10FFFF) as Hd by lia. clear Hv.
  unfold utf8_EncodeRune, utf8_ValidRune, surrogateMin, surrogateMax, MaxRune,
    utf8_encode3.
  assert (d <= 0x7F ∨ 0x7F < d <= 0x7FF ∨ 0x7FF < d <= 0xFFFF ∨ 0xFFFF < d)
    as Hcase by lia.
  destruct Hd as [Hd|Hd], Hcase as [H|[H|[H|H]]]; try (exfalso; lia);
    zdecide; cbn [String.length Nat.sub];
    rewrite ?byte_at_S, ?byte_at_0, ?byte_val_of by zlia;
    unfold continuation, utf8_RuneStart; zdecide;
    first
      [ left; by repeat split; try zlia
      | right; (split; [zlia|split; [done|split; [zlia|]]]);
        first [ by left
              | right; left; by repeat split; try zlia
              | right; right; by repeat split; try zlia ] ].
Qed.

Ltac byte_at_app i :=
  match goal with
  | |- context [byte_at (?x +:+ ?e) ?n] =>
    rewrite (byte_at_app_r x e i n) by lia
  end.

(** Decoding from the end gives the last encoded scalar value. *)
Lemma utf8_DecodeLast_Encode (x : string) (d : rune) :
  utf8_ValidRune d = true →
  utf8_DecodeLastRuneInString (x +:+ utf8_EncodeRune d)
  = (d, String.length (utf8_EncodeRune d)).
Proof.
  intros Hv. pose proof (utf8_Decode_Encode d "" Hv) as Hdec.
  rewrite string_app_nil_r in Hdec.
  pose proof (utf8_EncodeRune_shape d Hv) as Hshape. cbv zeta in Hshape.
  revert Hdec Hshape. generalize (utf8_EncodeRune d). intros e Hdec Hshape.
  unfold utf8_DecodeLastRuneInString. cbv zeta. rewrite !string_app_length.
  destruct Hshape as [(Hlen & Hb & Hd)|(Hd & Hb0 & Hlast & Hshape)].
  - rewrite Hlen. rewrite (proj2 (Nat.eqb_neq _ _)) by lia.
    byte_at_app 0%nat. rewrite Hb.
    by rewrite (proj2 (Z.ltb_lt _ _)) by lia.
  - assert (2 <= String.length e)%nat as Hlen2 by (destruct Hshape as [|[[]|[]]]; lia).
    rewrite (proj2 (Nat.eqb_neq _ _)) by lia.
    rewrite (byte_at_app_r x e (String.length e - 1)) by lia.
    rewrite (proj2 (Z.ltb_ge _ _)) by (unfold continuation, RuneSelf in *; lia).
    assert (utf8_lastStart (x +:+ e) (String.length x + String.length e - 2) 3
            = String.length x) as ->.
    { destruct Hshape as [Hlen|[(Hlen & H1)|(Hlen & H1 & H2)]]; rewrite Hlen.
      - replace (String.length x + 2 - 2)%nat with (String.length x) by lia.
        cbn [utf8_lastStart]. byte_at_app 0%nat; by rewrite Hb0.
      - replace (String.length x + 3 - 2)%nat with (S (String.length x)) by lia.
        cbn [utf8_lastStart].
        byte_at_app 1%nat.
        rewrite (utf8_RuneStart_continuation _ H1).
        byte_at_app 0%nat; by rewrite Hb0.
      - replace (String.length x + 4 - 2)%nat with (S (S (String.length x))) by lia.
        cbn [utf8_lastStart].
        byte_at_app 2%nat.
        rewrite (utf8_RuneStart_continuation _ H2).
        byte_at_app 1%nat.
        rewrite (utf8_RuneStart_continuation _ H1).
        byte_at_app 0%nat; by rewrite Hb0. }
    rewrite string_drop_app, Hdec. by rewrite Nat.eqb_refl.
Qed.
End utf8_facts.


(** ** [strings.Map], [strings.ToLower] and [strings.TrimSpace] *)



Section strings_facts.
Context `{U : UnicodeTables}.
Local Open Scope Z_scope.

Lemma string_drop_shorter (s : string) (w : nat) :
  s ≠ "" → (1 <= w)%nat →
  (String.length (string_drop w s) < String.length s)%nat.
Proof.
  intros Hne Hw. rewrite string_drop_length. destruct s; [done|]. simpl. lia.
Qed.

Lemma string_length_eqb_0 (s : string) :
  s ≠ "" → (String.length s =? 0)%nat = false.
Proof. destruct s; [done|]. done. Qed.

(** [strings.Map] does not depend on the fuel once it covers the
    string. *)
Lemma strings_Map_loop_fuel (mapping : rune → rune) (fuel1 fuel2 : nat)
    (s : string) :
  (String.length s <= fuel1)%nat → (String.length s <= fuel2)%nat →
  strings_Map_loop fuel1 mapping s = strings_Map_loop fuel2 mapping s.
Proof.
  revert fuel2 s. induction fuel1 as [|fuel1 IH]; intros fuel2 s H1 H2.
  - apply Nat.le_0_r, string_length_0 in H1 as ->. by destruct fuel2.
  - destruct (decide (s = "")) as [->|Hne]; [by destruct fuel2|].
    destruct fuel2 as [|fuel2]; [by apply Nat.le_0_r, string_length_0 in H2|].
    cbn [strings_Map_loop]. rewrite (string_length_eqb_0 _ Hne).
    pose proof (utf8_Decode_width s Hne) as Hw.
    destruct (utf8_DecodeRuneInString s) as [c w]. simpl in Hw. f_equal.
    pose proof (string_drop_shorter s w Hne (proj1 Hw)).
    apply IH; lia.
Qed.

Lemma strings_Map_nil (mapping : rune → rune) : strings_Map mapping "" = "".
Proof. reflexivity. Qed.

Lemma string_length_S (s : string) :
  s ≠ "" → ∃ n, String.length s = S n.
Proof. destruct s; [done|]. eauto. Qed.

Lemma strings_Map_step (mapping : rune → rune) (s : string) :
  s ≠ "" →
  strings_Map mapping s
  = (if 0 <=? mapping (fst (utf8_DecodeRuneInString s))
     then utf8_EncodeRune (mapping (fst (utf8_DecodeRuneInString s)))
     else "")
    +:+ strings_Map mapping (string_drop (snd (utf8_DecodeRuneInString s)) s).
Proof.
  intros Hne. unfold strings_Map at 1.
  destruct (string_length_S s Hne) as [n Hn]. rewrite Hn.
  cbn [strings_Map_loop]. rewrite (string_length_eqb_0 _ Hne).
  pose proof (utf8_Decode_width s Hne) as Hw.
  destruct (utf8_DecodeRuneInString s) as [c w]. cbn [fst snd] in *. f_equal.
  pose proof (string_drop_shorter s w Hne (proj1 Hw)).
  apply strings_Map_loop_fuel; lia.
Qed.

Lemma utf8_EncodeRune_nonempty (d : rune) : utf8_EncodeRune d ≠ "".
Proof.
  pose proof (utf8_EncodeRune_length d) as H. intros E. rewrite E in H.
  simpl in H. lia.
Qed.

Lemma string_app_nonempty (s t : string) : s ≠ "" → s +:+ t ≠ "".
Proof. by destruct s. Qed.

Lemma utf8_ValidRune_nonneg (d : rune) : utf8_ValidRune d = true → 0 <= d.
Proof.
  unfold utf8_ValidRune, surrogateMin, surrogateMax, MaxRune. lia.
Qed.

(** [strings.Map] on a string that starts with an encoded rune. *)
Lemma strings_Map_Encode (mapping : rune → rune) (d : rune) (rest : string) :
  utf8_ValidRune d = true → 0 <= mapping d →
  strings_Map mapping (utf8_EncodeRune d +:+ rest)
  = utf8_EncodeRune (mapping d) +:+ strings_Map mapping rest.
Proof.
  intros Hv Hm.
  rewrite strings_Map_step
    by apply string_app_nonempty, utf8_EncodeRune_nonempty.
  rewrite (utf8_Decode_Encode d rest Hv). cbn [fst snd].
  rewrite string_drop_app. by rewrite (proj2 (Z.leb_le _ _)) by done.
Qed.

Lemma strings_Map_encodeAll (mapping : rune → rune) (ds : list rune) :
  Forall (λ d, utf8_ValidRune d = true ∧ mapping d = d) ds →
  strings_Map mapping (encodeAll ds) = encodeAll ds.
Proof.
  induction 1 as [|d ds [Hv Hd] _ IH]; [done|]. cbn [encodeAll foldr].
  fold (encodeAll ds). rewrite strings_Map_Encode, IH, Hd; [done..|].
  rewrite Hd. by apply utf8_ValidRune_nonneg.
Qed.

Lemma encodeAll_app (ds1 ds2 : list rune) :
  encodeAll (ds1 ++ ds2) = encodeAll ds1 +:+ encodeAll ds2.
Proof.
  induction ds1 as [|d ds1 IH]; [done|]. cbn [encodeAll foldr app].
  fold (encodeAll (ds1 ++ ds2)) (encodeAll ds1).
  by rewrite IH, string_app_assoc.
Qed.

Lemma encodeAll_first (d : rune) (ds : list rune) :
  utf8_ValidRune d = true →
  fst (utf8_DecodeRuneInString (encodeAll (d :: ds))) = d.
Proof.
  intros Hv. cbn [encodeAll foldr]. by rewrite utf8_Decode_Encode.
Qed.

Lemma encodeAll_last (ds : list rune) (d : rune) :
  utf8_ValidRune d = true →
  fst (utf8_DecodeLastRuneInString (encodeAll (ds ++ [d]))) = d.
Proof.
  intros Hv. rewrite encodeAll_app. cbn [encodeAll foldr].
  by rewrite string_app_nil_r, utf8_DecodeLast_Encode.
Qed.

Lemma encodeAll_nil_inv (ds : list rune) : encodeAll ds = "" → ds = [].
Proof.
  destruct ds as [|d ds]; [done|]. cbn [encodeAll foldr]. intros E.
  by apply string_app_nonempty in E; [|apply utf8_EncodeRune_nonempty].
Qed.

Lemma unicode_IsSpace_RuneError : unicode_IsSpace RuneError = false.
Proof. reflexivity. Qed.

(** A white-space rune at the front of [s] is there in its encoded
    form. *)
Lemma utf8_Decode_space (s : string) :
  s ≠ "" → unicode_IsSpace (fst (utf8_DecodeRuneInString s)) = true →
  utf8_ValidRune (fst (utf8_DecodeRuneInString s)) = true
  ∧ s = utf8_EncodeRune (fst (utf8_DecodeRuneInString s))
        +:+ string_drop (snd (utf8_DecodeRuneInString s)) s.
Proof.
  intros Hne Hsp. destruct (utf8_DecodeRuneInString s) as [c w] eqn:E.
  cbn [fst snd] in *.
  destruct (utf8_Encode_Decode s c w Hne E) as (Hv & Hs & _); [|done].
  right. intros ->. by rewrite unicode_IsSpace_RuneError in Hsp.
Qed.

(** *** The ASCII path of [strings.ToLower] *)

Lemma utf8_Decode_ascii (c : ascii) (s : string) :
  byte_val c < RuneSelf →
  utf8_DecodeRuneInString (String c s) = (byte_val c, 1%nat).
Proof.
  unfold RuneSelf. intros Hc. pose proof (byte_val_range c).
  unfold utf8_DecodeRuneInString. cbn [String.length].
  rewrite byte_at_0. unfold utf8_first_size. by zdecide.
Qed.

Lemma utf8_EncodeRune_ascii (r : rune) :
  0 <= r < RuneSelf → utf8_EncodeRune r = String (byte_of r) "".
Proof. unfold RuneSelf, utf8_EncodeRune. intros Hr. by zdecide. Qed.

Lemma strings_Map_ToLower_ascii (s : string) :
  isASCII s = true →
  strings_Map unicode_ToLower s = string_map ascii_lower s.
Proof.
  unfold isASCII. induction s as [|c s IH]; [done|].
  cbn [string_forallb string_map]. intros [Hc Hs]%andb_true_iff.
  apply Z.ltb_lt in Hc. pose proof (byte_val_range c) as Hr.
  rewrite strings_Map_step by done.
  rewrite (utf8_Decode_ascii c s Hc). cbn [fst snd string_drop].
  rewrite (IH Hs). unfold unicode_ToLower, ascii_lower, MaxASCII, RuneSelf in *.
  assert (65 <= byte_val c <= 90 ∨ byte_val c < 65 ∨ 90 < byte_val c)
    as [Hup|[Hup|Hup]] by lia; zdecide;
    rewrite utf8_EncodeRune_ascii by (unfold RuneSelf; lia);
    by rewrite ?byte_of_val.
Qed.

Lemma string_map_ascii_lower_id (s : string) :
  hasUpper s = false → string_map ascii_lower s = s.
Proof.
  unfold hasUpper. intros H%negb_false_iff.
  induction s as [|c s IH]; [done|].
  cbn [string_forallb string_map] in *.
  apply andb_true_iff in H as [Hc Hs]. rewrite (IH Hs).
  unfold ascii_lower. apply negb_true_iff in Hc. by rewrite Hc.
Qed.

(** [strings.ToLower] is [Map(unicode.ToLower, s)] on every string;
    the ASCII path is a shortcut. *)
Lemma strings_ToLower_Map (s : string) :
  strings_ToLower s = strings_Map unicode_ToLower s.
Proof.
  unfold strings_ToLower. destruct (isASCII s) eqn:Ha; [|done].
  rewrite (strings_Map_ToLower_ascii s Ha).
  destruct (hasUpper s) eqn:Hu; [done|]. cbn [negb].
  by rewrite string_map_ascii_lower_id.
Qed.

(** *** [strings.TrimSpace] *)

Lemma utf8_lastStart_le (s : string) (start steps : nat) :
  (utf8_lastStart s start steps <= start)%nat.
Proof.
  revert start. induction steps as [|steps IH]; intros start; [done|].
  cbn [utf8_lastStart]. destruct (utf8_RuneStart _); [done|].
  destruct start as [|start]; [done|]. specialize (IH start). lia.
Qed.

Lemma utf8_DecodeLast_width (s : string) :
  s ≠ "" → (1 <= snd (utf8_DecodeLastRuneInString s) <= String.length s)%nat.
Proof.
  intros Hne. unfold utf8_DecodeLastRuneInString.
  assert (1 <= String.length s)%nat as Hlen by (destruct s; [done|simpl; lia]).
  rewrite (string_length_eqb_0 _ Hne).
  destruct (_ <? RuneSelf); [simpl; lia|].
  pose proof (utf8_lastStart_le s (String.length s - 2) 3) as Hstart.
  set (start := utf8_lastStart s (String.length s - 2) 3) in *.
  destruct (decide (string_drop start s = "")) as [E|Hne'].
  - rewrite E. change (utf8_DecodeRuneInString "") with (RuneError, 0%nat).
    cbv iota. destruct (_ =? _)%nat eqn:E'; [|simpl; lia].
    apply Nat.eqb_eq in E'. lia.
  - pose proof (utf8_Decode_width _ Hne') as Hw.
    destruct (utf8_DecodeRuneInString (string_drop start s)) as [r size].
    cbn [snd] in Hw. rewrite string_drop_length in Hw.
    destruct (_ =? _)%nat; simpl; lia.
Qed.

Lemma TrimLeft_loop_spec (fuel : nat) (s : string) :
  (String.length s <= fuel)%nat →
  TrimLeft_loop fuel s = ""
  ∨ unicode_IsSpace (fst (utf8_DecodeRuneInString (TrimLeft_loop fuel s)))
    = false.
Proof.
  revert s. induction fuel as [|fuel IH]; intros s Hlen.
  { apply Nat.le_0_r, string_length_0 in Hlen as ->. by left. }
  cbn [TrimLeft_loop]. destruct (decide (s = "")) as [->|Hne]; [by left|].
  rewrite (string_length_eqb_0 _ Hne).
  pose proof (utf8_Decode_width s Hne) as Hw.
  destruct (utf8_DecodeRuneInString s) as [r w] eqn:E. cbn [snd] in Hw.
  destruct (unicode_IsSpace r) eqn:Hr.
  - apply IH. pose proof (string_drop_shorter s w Hne (proj1 Hw)). lia.
  - right. by rewrite E.
Qed.

Lemma TrimRight_loop_spec (fuel : nat) (s : string) :
  (String.length s <= fuel)%nat →
  (TrimRight_loop fuel s = ""
   ∨ unicode_IsSpace (fst (utf8_DecodeLastRuneInString (TrimRight_loop fuel s)))
     = false)
  ∧ ∃ z, s = TrimRight_loop fuel s +:+ z.
Proof.
  revert s. induction fuel as [|fuel IH]; intros s Hlen.
  { apply Nat.le_0_r, string_length_0 in Hlen as ->.
    split; [by left|by exists ""]. }
  cbn [TrimRight_loop].
  destruct (decide (s = "")) as [->|Hne]; [split; [by left|by exists ""]|].
  rewrite (string_length_eqb_0 _ Hne).
  pose proof (utf8_DecodeLast_width s Hne) as Hw.
  destruct (utf8_DecodeLastRuneInString s) as [r size] eqn:E. cbn [snd] in Hw.
  destruct (unicode_IsSpace r) eqn:Hr.
  - destruct (IH (string_take (String.length s - size) s)) as [H1 [z Hz]].
    { rewrite string_take_length; lia. }
    split; [done|]. exists (z +:+ string_drop (String.length s - size) s).
    rewrite <-string_app_assoc, <-Hz. by rewrite string_take_drop.
  - split; [right; by rewrite E|]. exists "". by rewrite string_app_nil_r.
Qed.

(** A string that neither starts nor ends with white space is left as
    it is. *)
Lemma strings_TrimSpace_fixed (s : string) :
  s ≠ "" →
  unicode_IsSpace (fst (utf8_DecodeRuneInString s)) = false →
  unicode_IsSpace (fst (utf8_DecodeLastRuneInString s)) = false →
  strings_TrimSpace s = s.
Proof.
  intros Hne Hfirst Hlast.
  destruct (string_length_S s Hne) as [n Hn].
  assert (strings_TrimLeftSpace s = s) as El.
  { unfold strings_TrimLeftSpace. rewrite Hn.
    cbn [TrimLeft_loop]. rewrite (string_length_eqb_0 _ Hne).
    destruct (utf8_DecodeRuneInString s) as [r w]. cbn [fst] in Hfirst.
    by rewrite Hfirst. }
  unfold strings_TrimSpace. rewrite El.
  unfold strings_TrimRightSpace. rewrite Hn.
  cbn [TrimRight_loop]. rewrite (string_length_eqb_0 _ Hne).
  destruct (utf8_DecodeLastRuneInString s) as [r w]. cbn [fst] in Hlast.
  by rewrite Hlast.
Qed.

(** What [strings.TrimSpace] returns is empty or has no white space at
    either end. *)
Lemma strings_TrimSpace_trimmed (s : string) :
  strings_TrimSpace s = ""
  ∨ (unicode_IsSpace (fst (utf8_DecodeRuneInString (strings_TrimSpace s)))
     = false
     ∧ ¬ ends_with_space (strings_TrimSpace s)).
Proof.
  unfold strings_TrimSpace.
  pose proof (TrimLeft_loop_spec (String.length s) s (Nat.le_refl _)) as Hl.
  fold (strings_TrimLeftSpace s) in Hl.
  set (t1 := strings_TrimLeftSpace s) in *.
  destruct (TrimRight_loop_spec (String.length t1) t1 (Nat.le_refl _))
    as [Hr [z Hz]].
  fold (strings_TrimRightSpace t1) in Hr, Hz.
  set (t := strings_TrimRightSpace t1) in *.
  destruct (decide (t = "")) as [E|Hne]; [by left|right].
  destruct Hr as [?|Hr]; [done|]. split.
  - destruct Hl as [Hl|Hl].
    { rewrite Hl in Hz. symmetry in Hz.
      by apply string_app_nonempty in Hz. }
    destruct (unicode_IsSpace (fst (utf8_DecodeRuneInString t))) eqn:Ht;
      [|done].
    destruct (utf8_Decode_space t Hne Ht) as [Hv Hs].
    rewrite Hz, Hs, string_app_assoc, utf8_Decode_Encode in Hl by done.
    cbn [fst] in Hl. congruence.
  - intros (x & c & Hx & Hv & Hc).
    rewrite Hx, utf8_DecodeLast_Encode in Hr by done. cbn [fst] in Hr.
    congruence.
Qed.

Context {L : UnicodeLaws U}.

(** The result of [Map(unicode.ToLower, t)] is a sequence of encoded
    runes that lower-casing leaves alone; it starts, and it ends, with
    white space only if [t] does. *)
Lemma strings_Map_ToLower_shape (t : string) :
  ∃ ds : list rune,
    strings_Map unicode_ToLower t = encodeAll ds
    ∧ Forall (λ d, utf8_ValidRune d = true ∧ unicode_ToLower d = d) ds
    ∧ (t ≠ "" → unicode_IsSpace (fst (utf8_DecodeRuneInString t)) = false →
       ∃ d ds', ds = d :: ds' ∧ unicode_IsSpace d = false)
    ∧ (t ≠ "" → ¬ ends_with_space t →
       ∃ ds' d, ds = ds' ++ [d] ∧ unicode_IsSpace d = false).
Proof.
  remember (String.length t) as n eqn:Hn.
  assert (String.length t <= n)%nat as Hlen by lia. clear Hn.
  revert t Hlen. induction n as [|n IH]; intros t Hlen.
  { apply Nat.le_0_r, string_length_0 in Hlen as ->.
    exists []. by repeat split. }
  destruct (decide (t = "")) as [->|Hne]; [exists []; by repeat split|].
  pose proof (utf8_Decode_width t Hne) as Hw.
  pose proof (utf8_Decode_valid t) as Hv.
  pose proof (strings_Map_step unicode_ToLower t Hne) as Hstep.
  pose proof (string_take_drop (snd (utf8_DecodeRuneInString t)) t) as Htd.
  pose proof (utf8_Decode_space t Hne) as Hspace.
  destruct (utf8_DecodeRuneInString t) as [c w]. cbn [fst snd] in *.
  destruct (IH (string_drop w t)) as (ds & Hds & Hall & _ & Hlast).
  { pose proof (string_drop_shorter t w Hne (proj1 Hw)). lia. }
  pose proof (ToLower_valid c Hv) as Hv'.
  assert (unicode_IsSpace c = false → unicode_IsSpace (unicode_ToLower c) = false)
    as Hsp.
  { intros Hc. destruct (unicode_IsSpace (unicode_ToLower c)) eqn:E; [|done].
    apply ToLower_space in E; [congruence|done]. }
  rewrite (proj2 (Z.leb_le _ _)), Hds in Hstep
    by by apply utf8_ValidRune_nonneg.
  exists (unicode_ToLower c :: ds). split; [done|]. split; [|split].
  - constructor; [|done]. split; [done|]. by apply ToLower_idem.
  - intros _ Hc. eauto.
  - intros _ Hend.
    assert (unicode_IsSpace c = true → string_drop w t ≠ "") as Hrest.
    { intros Hc E. destruct (Hspace Hc) as [Hvc Ht].
      apply Hend. exists "", c. rewrite E, string_app_nil_r in Ht. done. }
    destruct (decide (string_drop w t = "")) as [E|Hne'].
    + rewrite E, strings_Map_nil in Hds. symmetry in Hds.
      apply encodeAll_nil_inv in Hds as ->. exists [], (unicode_ToLower c).
      split; [done|]. apply Hsp. destruct (unicode_IsSpace c); [|done].
      by destruct Hrest.
    + destruct Hlast as (ds' & d & -> & Hd); [done| |].
      * intros (x & c' & Hx & Hvc' & Hc'). apply Hend.
        exists (string_take w t +:+ x), c'.
        by rewrite string_app_assoc, <-Hx, Htd.
      * by exists (unicode_ToLower c :: ds'), d.
Qed.

(** Trimming and lower-casing a second time changes nothing. *)
Lemma canonical_idempotent (r : string) :
  strings_ToLower (strings_TrimSpace (strings_ToLower (strings_TrimSpace r)))
  = strings_ToLower (strings_TrimSpace r).
Proof.
  rewrite !strings_ToLower_Map.
  destruct (decide (strings_TrimSpace r = "")) as [E|Hne].
  { by rewrite E. }
  destruct (strings_TrimSpace_trimmed r) as [E|[Hf Hl]]; [done|].
  destruct (strings_Map_ToLower_shape (strings_TrimSpace r))
    as (ds & Hds & Hall & Hfirst & Hlast).
  destruct (Hfirst Hne Hf) as (d & ds1 & Eds & Hd).
  destruct (Hlast Hne Hl) as (ds2 & d' & Eds' & Hd').
  rewrite Hds, strings_TrimSpace_fixed.
  - by apply strings_Map_encodeAll.
  - rewrite Eds. cbn [encodeAll foldr].
    apply string_app_nonempty, utf8_EncodeRune_nonempty.
  - rewrite Eds in Hall |- *. apply Forall_cons in Hall as [[Hv _] _].
    by rewrite encodeAll_first.
  - rewrite Eds' in Hall |- *. apply Forall_app in Hall as [_ Hall].
    apply Forall_cons in Hall as [[Hv _] _]. by rewrite encodeAll_last.
Qed.
End strings_facts.

(** ** Lists, sets and sorting *)

Lemma foldl_append_one {A} (acc l : list A) :
  foldl (λ out s, out ++ [s]) acc l = acc ++ l.
Proof.
  revert acc. induction l as [|x l IH]; intros acc; simpl.
  - by rewrite app_nil_r.
  - by rewrite IH, <-app_assoc.
Qed.

Lemma foldl_insert_set (set : gset string) (l : list string) :
  foldl (λ set s, {[ s ]} ∪ set) set l = list_to_set l ∪ set.
Proof.
  revert set. induction l as [|x l IH]; intros set; simpl.
  - set_solver.
  - rewrite IH. set_solver.
Qed.

Lemma string_le_ne_lt (s1 s2 : string) :
  String.le s1 s2 → s1 ≠ s2 → string_lt s1 s2.
Proof.
  unfold String.le, string_lt, String.leb, String.ltb. intros Hle Hne.
  destruct (s1 ?= s2)%string eqn:E; try done.
  by apply String.compare_eq_iff in E.
Qed.

Lemma string_lt_irrefl (s : string) : ¬ string_lt s s.
Proof.
  unfold string_lt, String.ltb. intros H.
  assert ((s ?= s)%string = Eq) as E.
  { pose proof (String.compare_antisym s s) as Ha.
    destruct (s ?= s)%string; simpl in Ha; congruence. }
  by rewrite E in H.
Qed.

Lemma sort_Strings_perm (l : list string) : sort_Strings l ≡ₚ l.
Proof. apply merge_sort_Permutation. Qed.

Lemma sort_Strings_sorted (l : list string) :
  StronglySorted String.le (sort_Strings l).
Proof. apply (StronglySorted_merge_sort _). Qed.

(** The result of [sort.Strings] depends on the elements only, not on
    the order they come in. *)
Lemma sort_Strings_order_irrelevant (l1 l2 : list string) :
  l1 ≡ₚ l2 → sort_Strings l1 = sort_Strings l2.
Proof.
  intros E. apply (StronglySorted_unique String.le);
    [apply sort_Strings_sorted..|].
  by rewrite !sort_Strings_perm.
Qed.

Lemma sort_Strings_strict (l : list string) :
  NoDup l → StronglySorted string_lt (sort_Strings l).
Proof.
  intros Hnd. rewrite <-sort_Strings_perm in Hnd.
  pose proof (sort_Strings_sorted l) as Hs.
  induction Hs as [|x l' Hs IH Hx]; [constructor|].
  apply NoDup_cons in Hnd as [Hx' Hnd]. constructor; [by apply IH|].
  rewrite Forall_forall in Hx |- *. intros y Hy.
  apply string_le_ne_lt; [by apply Hx|]. intros ->. done.
Qed.

Lemma range_sorted_eq (it it' : MapRange) (set : gset string) :
  sort_Strings (foldl (λ out s, out ++ [s]) [] (range_keys it set))
  = sort_Strings (foldl (λ out s, out ++ [s]) [] (range_keys it' set)).
Proof.
  rewrite !foldl_append_one. simpl. apply sort_Strings_order_irrelevant.
  by rewrite !range_keys_perm.
Qed.

Lemma elem_of_range_sorted (it : MapRange) (set : gset string) (s : string) :
  s ∈ sort_Strings (foldl (λ out s, out ++ [s]) [] (range_keys it set))
  ↔ s ∈ set.
Proof.
  rewrite foldl_append_one. simpl.
  by rewrite sort_Strings_perm, range_keys_perm, elem_of_elements.
Qed.

Lemma range_sorted_strict (it : MapRange) (set : gset string) :
  StronglySorted string_lt
    (sort_Strings (foldl (λ out s, out ++ [s]) [] (range_keys it set))).
Proof.
  rewrite foldl_append_one. simpl. apply sort_Strings_strict.
  rewrite range_keys_perm. apply NoDup_elements.
Qed.

Lemma StronglySorted_lt_NoDup (l : list string) :
  StronglySorted string_lt l → NoDup l.
Proof.
  induction 1 as [|x l Hs IH Hx]; constructor; [|done].
  intros Hin. rewrite Forall_forall in Hx.
  by apply (string_lt_irrefl x), Hx.
Qed.

(** ** Scope resolution *)

Lemma Scopes_registered (svc : Service) (info : serviceInfo) :
  serviceInfoByService !! svc = Some info → Scopes svc = (scopes info, None).
Proof. unfold Scopes. by intros ->. Qed.

Lemma Scopes_unregistered (svc : Service) :
  serviceInfoByService !! svc = None → Scopes svc = ([], Some errUnknownService).
Proof. unfold Scopes. by intros ->. Qed.

Lemma ScopesForServices_loop_registered (set : gset string) (services : list Service) :
  Forall registered services →
  ScopesForServices_loop set services
  = inl (list_to_set (services ≫= declaredScopes) ∪ set).
Proof.
  intros Hreg. revert set.
  induction Hreg as [|svc rest [info Hinfo] _ IH]; intros set; simpl.
  - f_equal. set_solver.
  - rewrite (Scopes_registered _ _ Hinfo), IH, foldl_insert_set.
    f_equal. unfold declaredScopes at 2. rewrite Hinfo. set_solver.
Qed.

Lemma ScopesForServices_loop_unregistered (set : gset string)
    (pre post : list Service) (x : Service) :
  Forall registered pre → serviceInfoByService !! x = None →
  ScopesForServices_loop set (pre ++ x :: post) = inr errUnknownService.
Proof.
  intros Hreg Hx. revert set.
  induction Hreg as [|svc rest [info Hinfo] _ IH]; intros set; simpl.
  - by rewrite (Scopes_unregistered _ Hx).
  - by rewrite (Scopes_registered _ _ Hinfo), IH.
Qed.

Lemma elem_of_declaredScopes (services : list Service) (s : string) :
  s ∈ services ≫= declaredScopes ↔
  ∃ svc info, svc ∈ services ∧ serviceInfoByService !! svc = Some info
              ∧ s ∈ scopes info.
Proof.
  rewrite list_elem_of_bind. unfold declaredScopes. split.
  - intros (svc & Hs & Hsvc).
    destruct (serviceInfoByService !! svc) as [info|] eqn:E; [|by inv Hs].
    by exists svc, info.
  - intros (svc & info & Hsvc & E & Hs). exists svc. by rewrite E.
Qed.

Lemma ScopesForServices_registered (it : MapRange) (services : list Service) :
  Forall registered services →
  ScopesForServices it services
  = (sort_Strings (foldl (λ out s, out ++ [s]) []
       (range_keys it (list_to_set (services ≫= declaredScopes)))), None).
Proof.
  intros Hreg. unfold ScopesForServices.
  rewrite (ScopesForServices_loop_registered _ _ Hreg).
  by rewrite (right_id_L ∅ (∪)).
Qed.

(** No record of the table declares an empty scope or one of the three
    identity scopes. *)
Lemma registry_scopes_plain :
  map_Forall (λ (_ : Service) info,
    Forall (λ s, s ≠ "" ∧ s ∉ identityScopes) (scopes info))
    serviceInfoByService.
Proof. eapply bool_decide_eq_true_1. by vm_compute. Qed.

Lemma declaredScopes_plain (services : list Service) (s : string) :
  s ∈ services ≫= declaredScopes → s ≠ "" ∧ s ∉ identityScopes.
Proof.
  rewrite elem_of_declaredScopes. intros (svc & info & _ & E & Hs).
  pose proof (registry_scopes_plain svc info E) as Hall.
  rewrite Forall_forall in Hall. by apply Hall.
Qed.

Lemma elem_of_foldl_add_nonempty (set : gset string) (l : list string) (s : string) :
  s ∈ foldl (λ (set : gset string) (s : string),
              if bool_decide (s = "") then set else {[ s ]} ∪ set) set l
  ↔ (s ≠ "" ∧ s ∈ l) ∨ s ∈ set.
Proof.
  revert set. induction l as [|x l IH]; intros set; simpl.
  - set_solver.
  - rewrite IH. case_bool_decide; set_solver.
Qed.

Lemma elem_of_mergeScopes (it : MapRange) (scopes extras : list string) (s : string) :
  s ∈ mergeScopes it scopes extras ↔ s ≠ "" ∧ (s ∈ scopes ∨ s ∈ extras).
Proof.
  unfold mergeScopes. rewrite elem_of_range_sorted.
  rewrite !elem_of_foldl_add_nonempty. set_solver.
Qed.

Lemma mergeScopes_strict (it : MapRange) (scopes extras : list string) :
  StronglySorted string_lt (mergeScopes it scopes extras).
Proof. apply range_sorted_strict. Qed.

Lemma ScopesForServices_unregistered (it : MapRange)
    (pre post : list Service) (x : Service) :
  Forall registered pre → serviceInfoByService !! x = None →
  ScopesForServices it (pre ++ x :: post) = ([], Some errUnknownService).
Proof.
  intros Hpre Hx. unfold ScopesForServices.
  by rewrite (ScopesForServices_loop_unregistered _ _ _ _ Hpre Hx).
Qed.

Lemma ScopesForManage_unregistered (it : MapRange)
    (pre post : list Service) (x : Service) :
  Forall registered pre → serviceInfoByService !! x = None →
  ScopesForManage it (pre ++ x :: post) = ([], Some errUnknownService).
Proof.
  intros Hpre Hx. unfold ScopesForManage.
  by rewrite (ScopesForServices_unregistered _ _ _ _ Hpre Hx).
Qed.

(** ** The claims on scope resolution *)

(** C1. For a list of registered services, [ScopesForServices] succeeds
    and returns the union of the scopes the services declare: a scope is in
    the result exactly when one of the services declares it, no scope
    occurs twice, and the result is strictly increasing for the byte-wise
    order of strings.  The result is the same for every iteration order of
    the Go map and for every other input list with the same elements, so
    neither the order of the input nor repeated entries change it. *)
Theorem ScopesForServices_union_sorted (it : MapRange) (services : list Service) :
  Forall registered services →
  ∃ out : list string,
    ScopesForServices it services = (out, None)
    ∧ (∀ s, s ∈ out ↔
         ∃ svc info, svc ∈ services
                     ∧ serviceInfoByService !! svc = Some info
                     ∧ s ∈ scopes info)
    ∧ NoDup out
    ∧ StronglySorted string_lt out
    ∧ (∀ (it' : MapRange) (services' : list Service),
         (∀ svc, svc ∈ services' ↔ svc ∈ services) →
         ScopesForServices it' services' = (out, None)).
Proof.
  intros Hreg. eexists. split; [by apply ScopesForServices_registered|].
  split; [|split; [|split]].
  - intros s. by rewrite elem_of_range_sorted, elem_of_list_to_set,
      elem_of_declaredScopes.
  - apply StronglySorted_lt_NoDup, range_sorted_strict.
  - apply range_sorted_strict.
  - intros it' services' Hsame.
    assert (Forall registered services') as Hreg'.
    { rewrite Forall_forall in Hreg |- *. intros svc Hsvc.
      by apply Hreg, Hsame. }
    rewrite (ScopesForServices_registered _ _ Hreg'). f_equal.
    assert (list_to_set (services' ≫= declaredScopes)
            =@{gset string} list_to_set (services ≫= declaredScopes)) as ->.
    { apply set_eq. intros s. rewrite !elem_of_list_to_set, !list_elem_of_bind.
      by setoid_rewrite Hsame. }
    apply range_sorted_eq.
Qed.

Lemma ScopesForServices_union_sorted_witness :
  ∃ out : list string,
    ScopesForServices elementsRange
      [ServiceContacts; ServiceGmail; ServiceContacts] = (out, None)
    ∧ (∀ s, s ∈ out ↔
         ∃ svc info, svc ∈ [ServiceContacts; ServiceGmail; ServiceContacts]
                     ∧ serviceInfoByService !! svc = Some info
                     ∧ s ∈ scopes info)
    ∧ NoDup out
    ∧ StronglySorted string_lt out
    ∧ (∀ (it' : MapRange) (services' : list Service),
         (∀ svc, svc ∈ services'
                 ↔ svc ∈ [ServiceContacts; ServiceGmail; ServiceContacts]) →
         ScopesForServices it' services' = (out, None)).
Proof.
  apply (ScopesForServices_union_sorted elementsRange
           [ServiceContacts; ServiceGmail; ServiceContacts]).
  repeat constructor; vm_compute; eauto.
Defined.

(** C3. For a list of registered services, [ScopesForManage] succeeds and
    returns the scopes of [ScopesForServices] together with the three
    identity scopes [openid], [email] and
    [https://www.googleapis.com/auth/userinfo.email], none of which
    [ScopesForServices] returns; the result has no repeated entry, is
    strictly increasing and does not contain the empty string, which
    [mergeScopes] leaves out whatever it is given. *)
Theorem ScopesForManage_superset (it : MapRange) (services : list Service) :
  Forall registered services →
  ∃ base out : list string,
    ScopesForServices it services = (base, None)
    ∧ ScopesForManage it services = (out, None)
    ∧ identityScopes
      = ["openid"; "email"; "https://www.googleapis.com/auth/userinfo.email"]
    ∧ (∀ s, s ∈ out ↔ s ∈ base ∨ s ∈ identityScopes)
    ∧ (∀ s, s ∈ identityScopes → s ∉ base)
    ∧ NoDup out
    ∧ StronglySorted string_lt out
    ∧ ("" ∉ out)
    ∧ (∀ scopes extras : list string, "" ∉ mergeScopes it scopes extras).
Proof.
  intros Hreg. pose proof (ScopesForServices_registered it _ Hreg) as Hbase.
  eexists _, _. split; [exact Hbase|].
  unfold ScopesForManage. rewrite Hbase.
  split; [reflexivity|]. split; [reflexivity|].
  assert (∀ s, s ∈ sort_Strings (foldl (λ out s, out ++ [s]) []
                 (range_keys it (list_to_set (services ≫= declaredScopes))))
               → s ≠ "" ∧ s ∉ identityScopes) as Hplain.
  { intros s. rewrite elem_of_range_sorted, elem_of_list_to_set.
    apply declaredScopes_plain. }
  split; [|split; [|split; [|split; [|split]]]].
  - intros s. rewrite elem_of_mergeScopes. split.
    + tauto.
    + intros [Hs|Hs]; (split; [|tauto]).
      * by apply Hplain.
      * intros ->. revert Hs. unfold identityScopes.
        rewrite !elem_of_cons, elem_of_nil. by intros [|[|[|]]].
  - intros s Hs Hin. by apply Hplain in Hin as [_ ?].
  - apply StronglySorted_lt_NoDup, mergeScopes_strict.
  - apply mergeScopes_strict.
  - rewrite elem_of_mergeScopes. tauto.
  - intros scopes extras. rewrite elem_of_mergeScopes. tauto.
Qed.

Lemma ScopesForManage_superset_witness :
  ∃ base out : list string,
    ScopesForServices elementsRange [ServiceDocs; ServiceDrive] = (base, None)
    ∧ ScopesForManage elementsRange [ServiceDocs; ServiceDrive] = (out, None)
    ∧ identityScopes
      = ["openid"; "email"; "https://www.googleapis.com/auth/userinfo.email"]
    ∧ (∀ s, s ∈ out ↔ s ∈ base ∨ s ∈ identityScopes)
    ∧ (∀ s, s ∈ identityScopes → s ∉ base)
    ∧ NoDup out
    ∧ StronglySorted string_lt out
    ∧ ("" ∉ out)
    ∧ (∀ scopes extras : list string,
         "" ∉ mergeScopes elementsRange scopes extras).
Proof.
  apply (ScopesForManage_superset elementsRange [ServiceDocs; ServiceDrive]).
  repeat constructor; vm_compute; eauto.
Defined.

(** C4. When the input has an identifier the table does not know,
    [ScopesForServices] returns the error [Scopes] gives for the first such
    identifier, the unknown-service error, and a nil slice: nothing of the
    scopes resolved before it.  [ScopesForManage] returns the same error and
    a nil slice. *)
Theorem ScopesForServices_first_unknown (it : MapRange) (services : list Service) :
  Exists (λ svc, ¬ registered svc) services →
  ∃ (pre post : list Service) (x : Service),
    services = pre ++ x :: post
    ∧ Forall registered pre
    ∧ ¬ registered x
    ∧ snd (Scopes x) = Some errUnknownService
    ∧ ScopesForServices it services = ([], snd (Scopes x))
    ∧ ScopesForManage it services = ([], snd (Scopes x)).
Proof.
  intros Hex.
  assert (∃ pre post x, services = pre ++ x :: post
            ∧ Forall registered pre ∧ ¬ registered x) as (pre & post & x & -> & Hpre & Hx).
  { induction services as [|svc rest IH]; [by inv Hex|].
    destruct (decide (registered svc)) as [Hsvc|Hsvc].
    - destruct IH as (pre & post & x & -> & Hpre & Hx).
      { inv Hex; [done|done]. }
      exists (svc :: pre), post, x. split; [done|]. by split; [constructor|].
    - by exists [], rest, svc. }
  exists pre, post, x. split; [done|]. split; [done|]. split; [done|].
  assert (serviceInfoByService !! x = None) as Hnone.
  { apply eq_None_not_Some. exact Hx. }
  rewrite (Scopes_unregistered _ Hnone). simpl. split; [done|].
  by split; [apply ScopesForServices_unregistered
            |apply ScopesForManage_unregistered].
Qed.

Lemma ScopesForServices_first_unknown_witness :
  ∃ (pre post : list Service) (x : Service),
    [ServiceDocs; "nope"; ServiceGmail; "other"] = pre ++ x :: post
    ∧ Forall registered pre
    ∧ ¬ registered x
    ∧ snd (Scopes x) = Some errUnknownService
    ∧ ScopesForServices elementsRange [ServiceDocs; "nope"; ServiceGmail; "other"]
      = ([], snd (Scopes x))
    ∧ ScopesForManage elementsRange [ServiceDocs; "nope"; ServiceGmail; "other"]
      = ([], snd (Scopes x)).
Proof.
  apply (ScopesForServices_first_unknown elementsRange
           [ServiceDocs; "nope"; ServiceGmail; "other"]).
  apply Exists_cons_tl, Exists_cons_hd. vm_compute. by intros [? ?].
Defined.

(** C10. On the empty list [ScopesForServices] succeeds with the empty
    slice, and [ScopesForManage] succeeds with the three identity scopes in
    increasing order. *)
Theorem Scopes_of_no_service (it : MapRange) :
  ScopesForServices it [] = ([], None)
  ∧ ScopesForManage it []
    = (["email"; "https://www.googleapis.com/auth/userinfo.email"; "openid"],
       None).
Proof.
  assert (ScopesForServices it [] = ([], None)) as E.
  { rewrite (ScopesForServices_registered it []) by constructor.
    by rewrite (range_sorted_eq it elementsRange). }
  split; [done|]. unfold ScopesForManage. rewrite E. f_equal.
  unfold mergeScopes. by rewrite (range_sorted_eq it elementsRange).
Qed.

(** ** The registry *)

(** C9. The presentation order has no repeated identifier, and an
    identifier is in the order exactly when the table has a record for it:
    the order and the key set of the table are the same set. *)
Theorem registry_order_covers_keys :
  NoDup serviceOrder
  ∧ (∀ svc, svc ∈ serviceOrder → is_Some (serviceInfoByService !! svc))
  ∧ (∀ svc, is_Some (serviceInfoByService !! svc) → svc ∈ serviceOrder)
  ∧ dom serviceInfoByService = list_to_set serviceOrder
  ∧ length serviceOrder = size serviceInfoByService.
Proof.
  assert (dom serviceInfoByService =@{gset Service} list_to_set serviceOrder) as Hdom.
  { eapply bool_decide_eq_true_1. by vm_compute. }
  split; [|split; [|split; [|split]]].
  - eapply bool_decide_eq_true_1. by vm_compute.
  - intros svc Hsvc. apply elem_of_dom. rewrite Hdom. by apply elem_of_list_to_set.
  - intros svc Hsvc. apply elem_of_dom in Hsvc. rewrite Hdom in Hsvc.
    by apply elem_of_list_to_set in Hsvc.
  - exact Hdom.
  - by vm_compute.
Qed.

Lemma filteredServices_loop (include : option (serviceInfo → bool))
    (acc order : list Service) :
  foldl (λ out svc,
    match serviceInfoByService !! svc with
    | None => out
    | Some info =>
      match include with
      | None => out ++ [svc]
      | Some f => if f info then out ++ [svc] else out
      end
    end) acc order
  = acc ++ filter (λ svc, included include svc = true) order.
Proof.
  revert acc. induction order as [|svc order IH]; intros acc; simpl.
  - by rewrite app_nil_r.
  - rewrite IH. unfold included at 2.
    destruct (serviceInfoByService !! svc) as [info|] eqn:E.
    + destruct include as [f|].
      * destruct (f info) eqn:Ef.
        -- rewrite filter_cons_True by (unfold included; by rewrite E).
           by rewrite <-app_assoc.
        -- rewrite filter_cons_False; [done|].
           unfold included. rewrite E, Ef. done.
      * rewrite filter_cons_True by (unfold included; by rewrite E).
        by rewrite <-app_assoc.
    + rewrite filter_cons_False; [done|]. unfold included. by rewrite E.
Qed.

Lemma filteredServices_filter (include : option (serviceInfo → bool)) :
  filteredServices include
  = filter (λ svc, included include svc = true) serviceOrder.
Proof. unfold filteredServices. by rewrite filteredServices_loop. Qed.

(** C7. [UserServices] is a proper subsequence of [AllServices]: it keeps
    the relative order, it is not the whole list, it holds exactly the
    identifiers of the order whose record has [user] set, and no identifier
    whose record has [user] unset, [keep] among them, is in it. *)
Theorem UserServices_proper_subsequence :
  UserServices `sublist_of` AllServices
  ∧ UserServices ≠ AllServices
  ∧ (∀ svc, svc ∈ UserServices ↔
       svc ∈ AllServices
       ∧ ∃ info, serviceInfoByService !! svc = Some info ∧ user info = true)
  ∧ (∀ svc info, serviceInfoByService !! svc = Some info →
       user info = false → svc ∉ UserServices)
  ∧ ServiceKeep ∉ UserServices.
Proof.
  unfold UserServices, AllServices. rewrite filteredServices_filter.
  assert (∀ svc, svc ∈ filter (λ svc, included (Some (λ info, user info)) svc = true)
                   serviceOrder
                 ↔ svc ∈ serviceOrder
                   ∧ ∃ info, serviceInfoByService !! svc = Some info
                             ∧ user info = true) as Hin.
  { intros svc. rewrite list_elem_of_filter. unfold included.
    destruct (serviceInfoByService !! svc) as [info|]; naive_solver. }
  split; [apply sublist_filter|]. split; [|split; [exact Hin|split]].
  - intros E. apply (f_equal length) in E. by vm_compute in E.
  - intros svc info E Hu (_ & info' & E' & Hu')%Hin. congruence.
  - intros (_ & info & E & Hu)%Hin. by vm_compute in E; simplify_eq.
Qed.

(** ** Rendering *)

Lemma markdownScopes_concat (scopes : list string) :
  markdownScopes scopes
  = String.concat "<br>" ((λ scope, "`" +:+ scope +:+ "`") <$> scopes).
Proof.
  unfold markdownScopes. destruct scopes as [|x l]; [done|].
  simpl length. simpl Nat.eqb. cbv iota.
  rewrite strings_Join_concat. f_equal.
  generalize (x :: l). intros l'.
  assert (∀ acc, foldl (λ parts scope, parts ++ ["`" +:+ scope +:+ "`"]) acc l'
                 = acc ++ ((λ scope, "`" +:+ scope +:+ "`") <$> l')) as H.
  { induction l' as [|y l' IH]; intros acc; simpl.
    - by rewrite app_nil_r.
    - by rewrite IH, <-app_assoc. }
  apply H.
Qed.

Lemma ServicesMarkdown_rows (b : string) (infos : list ServiceInfo) :
  foldl (λ b info,
      let userLabel := if Info_User info then "yes" else "no" in
      let b := b +:+ "| " in
      let b := b +:+ Info_Service info in
      let b := b +:+ " | " in
      let b := b +:+ userLabel in
      let b := b +:+ " | " in
      let b := b +:+ strings_Join (Info_APIs info) ", " in
      let b := b +:+ " | " in
      let b := b +:+ markdownScopes (Info_Scopes info) in
      let b := b +:+ " | " in
      let b := b +:+ Info_Note info in
      b +:+ " |
") b infos
  = b +:+ String.concat "" (markdownRow <$> infos).
Proof.
  revert b. induction infos as [|info infos IH]; intros b.
  - simpl. by rewrite string_app_nil_r.
  - simpl foldl. rewrite IH, fmap_cons, string_concat_empty_cons.
    unfold markdownRow at 2.
    rewrite strings_Join_concat, markdownScopes_concat.
    by rewrite !string_app_assoc.
Qed.

(** C8. [ServicesMarkdown] returns the empty string, without a header, for
    an empty list; for a non-empty list it returns the two header lines
    followed by one line per view, in the order of the input.  The line of a
    view has the identifier, [yes] or [no] for the account flag, the APIs
    joined with a comma and a space, the scopes each between back-ticks and
    joined with [<br>], and the note. *)
Theorem ServicesMarkdown_table :
  ServicesMarkdown [] = ""
  ∧ ∀ (info : ServiceInfo) (infos : list ServiceInfo),
      ServicesMarkdown (info :: infos)
      = markdownHeader
        +:+ String.concat "" (markdownRow <$> info :: infos).
Proof.
  split; [done|]. intros info infos. unfold ServicesMarkdown.
  simpl length. simpl Nat.eqb. cbv iota. cbv zeta.
  by rewrite ServicesMarkdown_rows.
Qed.

(** ** Parsing *)

(** The tables without any entry above Latin-1 satisfy the laws. *)
Lemma latin1Laws : UnicodeLaws latin1Tables.
Proof.
  split; unfold unicode_ToLower, unicode_IsSpace, utf8_ValidRune, MaxASCII,
    MaxLatin1, surrogateMin, surrogateMax, MaxRune; cbn [LowerCase_table latin1Tables];
    intros r Hv.
  - assert (65 <= r <= 90 ∨ r < 65 ∨ 90 < r <= 127 ∨ 127 < r)%Z
      as [H|[H|[H|H]]] by lia; by zdecide.
  - assert (65 <= r <= 90 ∨ r < 65 ∨ 90 < r <= 127 ∨ 127 < r)%Z
      as [H|[H|[H|H]]] by lia; revert Hv; zdecide; done.
  - assert (65 <= r <= 90 ∨ r < 65 ∨ 90 < r <= 127 ∨ 127 < r)%Z
      as [H|[H|[H|H]]] by lia; zdecide; try done.
Qed.

Lemma serviceNames_concat (services : list Service) (sep : string) :
  serviceNames services sep = String.concat sep services.
Proof.
  unfold serviceNames. by rewrite foldl_append_one, strings_Join_concat.
Qed.

Lemma string_prefix_app (s t : string) : String.prefix s (s +:+ t) = true.
Proof.
  induction s as [|c s IH]; [by destruct t|].
  rewrite string_app_cons. simpl. by destruct (ascii_dec c c).
Qed.



Section parsing.
Context `{U : UnicodeTables}.



Lemma ParseService_unregistered (s : string) :
  serviceInfoByService !! strings_ToLower (strings_TrimSpace s) = None →
  ParseService s
  = ("", Some (wrapError
       ("unknown service " +:+ strconv_Quote s
        +:+ " (expected " +:+ String.concat "|" serviceOrder +:+ ")")
       errUnknownService)).
Proof.
  intros H. unfold ParseService. cbv zeta. rewrite H.
  unfold fmt_Errorf_w_q_expected, AllServices.
  by rewrite serviceNames_concat.
Qed.

Lemma ParseService_registered (s : string) :
  is_Some (serviceInfoByService !! strings_ToLower (strings_TrimSpace s)) →
  ParseService s = (strings_ToLower (strings_TrimSpace s), None).
Proof. intros [info H]. unfold ParseService. cbv zeta. by rewrite H. Qed.


(** C6, as the code has it.  The error of [ParseService] wraps
    [errUnknownService] and its message carries the input, printed by
    [%q], and the valid identifiers.  The error [Scopes] returns for an
    identifier the table does not know is [errUnknownService] itself,
    whose message is [unknown service] and names no identifier;
    [ScopesForServices] and [ScopesForManage] pass it on as it is. *)
Theorem unknown_service_errors (svc : Service) (s : string) :
  ¬ registered svc →
  serviceInfoByService !! strings_ToLower (strings_TrimSpace s) = None →
  Scopes svc = ([], Some errUnknownService)
  ∧ Error errUnknownService = "unknown service"
  ∧ (∀ it : MapRange,
       ScopesForServices it [svc] = ([], Some errUnknownService)
       ∧ ScopesForManage it [svc] = ([], Some errUnknownService))
  ∧ ∃ e : err,
      ParseService s = ("", Some e)
      ∧ errors_Is e errUnknownService = true
      ∧ Error e = "unknown service " +:+ strconv_Quote s
                  +:+ " (expected " +:+ String.concat "|" serviceOrder +:+ ")".
Proof.
  intros Hsvc%eq_None_not_Some Hs. split; [|split; [done|split]].
  - by apply Scopes_unregistered.
  - intros it.
    by split; [apply (ScopesForServices_unregistered it [] [])
              |apply (ScopesForManage_unregistered it [] [])].
  - eexists. by split; [apply ParseService_unregistered|].
Qed.

(** C2. Every identifier of [AllServices] parses to itself, and
    [ParseService] gives for a string what it gives for its trimmed,
    lower-cased form: the same identifier, the same result when it
    succeeds, and an error for the one exactly when for the other, which
    then wraps [errUnknownService] for both. *)
Theorem ParseService_roundtrip_insensitive {L : UnicodeLaws U} :
  (∀ s : Service, s ∈ AllServices → ParseService s = (s, None))
  ∧ (∀ r : string,
       fst (ParseService r)
       = fst (ParseService (strings_ToLower (strings_TrimSpace r)))
       ∧ (snd (ParseService r) = None
          ↔ snd (ParseService (strings_ToLower (strings_TrimSpace r))) = None)
       ∧ (∀ svc : Service,
            ParseService r = (svc, None)
            ↔ ParseService (strings_ToLower (strings_TrimSpace r)) = (svc, None))
       ∧ (∀ e : err,
            snd (ParseService r) = Some e
            ∨ snd (ParseService (strings_ToLower (strings_TrimSpace r))) = Some e →
            errors_Is e errUnknownService = true))
  ∧ ParseService " GMAIL " = ParseService "gmail".
Proof.
  split; [|split].
  - intros s. unfold AllServices, serviceOrder.
    rewrite !elem_of_cons, elem_of_nil.
    intros [->|[->|[->|[->|[->|[->|[->|[->|[->|[->|[]]]]]]]]]]];
      by vm_compute.
  - intros r.
    destruct (serviceInfoByService !! strings_ToLower (strings_TrimSpace r))
      as [info|] eqn:E.
    + rewrite (ParseService_registered r), (ParseService_registered _);
        rewrite ?canonical_idempotent, ?E; [|by eauto..]. cbn [fst snd].
      split; [done|]. split; [done|]. split; [done|]. by intros e [|].
    + rewrite (ParseService_unregistered r E), (ParseService_unregistered _);
        rewrite ?canonical_idempotent, ?E; [|done]. cbn [fst snd].
      split; [done|]. split; [done|]. split.
      * intros svc. split; intros [=].
      * by intros e [[= <-]|[= <-]].
  - by vm_compute.
Qed.
End parsing.


(** C6 does not hold for [Scopes]: for the unregistered identifier [nope]
    the error is [errUnknownService], and its message does not contain
    [nope]. *)
Lemma Scopes_unknown_omits_input :
  ∃ e : err,
    Scopes "nope" = ([], Some e)
    ∧ errors_Is e errUnknownService = true
    ∧ Error e = "unknown service"
    ∧ strings_Contains (Error e) "nope" = false.
Proof. exists errUnknownService. by vm_compute. Qed.

Lemma unknown_service_errors_witness :
  Scopes "nope" = ([], Some errUnknownService)
  ∧ Error errUnknownService = "unknown service"
  ∧ (∀ it : MapRange,
       ScopesForServices it ["nope"] = ([], Some errUnknownService)
       ∧ ScopesForManage it ["nope"] = ([], Some errUnknownService))
  ∧ ∃ e : err,
      @ParseService latin1Tables "nope" = ("", Some e)
      ∧ errors_Is e errUnknownService = true
      ∧ Error e = "unknown service " +:+ @strconv_Quote latin1Tables "nope"
                  +:+ " (expected " +:+ String.concat "|" serviceOrder +:+ ")".
Proof.
  apply (@unknown_service_errors latin1Tables "nope" "nope").
  - vm_compute. by intros [? ?].
  - reflexivity.
Defined.

Lemma ParseService_roundtrip_insensitive_witness :
  (∀ s : Service, s ∈ AllServices → @ParseService latin1Tables s = (s, None))
  ∧ (∀ r : string,
       fst (@ParseService latin1Tables r)
       = fst (@ParseService latin1Tables
                (@strings_ToLower latin1Tables (strings_TrimSpace r)))
       ∧ (snd (@ParseService latin1Tables r) = None
          ↔ snd (@ParseService latin1Tables
                   (@strings_ToLower latin1Tables (strings_TrimSpace r))) = None)
       ∧ (∀ svc : Service,
            @ParseService latin1Tables r = (svc, None)
            ↔ @ParseService latin1Tables
                (@strings_ToLower latin1Tables (strings_TrimSpace r)) = (svc, None))
       ∧ (∀ e : err,
            snd (@ParseService latin1Tables r) = Some e
            ∨ snd (@ParseService latin1Tables
                     (@strings_ToLower latin1Tables (strings_TrimSpace r))) = Some e →
            errors_Is e errUnknownService = true))
  ∧ @ParseService latin1Tables " GMAIL " = @ParseService latin1Tables "gmail".
Proof.
  apply (@ParseService_roundtrip_insensitive latin1Tables latin1Laws).
Defined.

(** * Further properties *)

(** ** Sorted, duplicate-free lists of scopes *)

Lemma string_lt_le (s1 s2 : string) : string_lt s1 s2 → String.le s1 s2.
Proof.
  unfold string_lt, String.le, String.ltb, String.leb.
  by destruct (s1 ?= s2)%string.
Qed.

Lemma StronglySorted_lt_le (l : list string) :
  StronglySorted string_lt l → StronglySorted String.le l.
Proof.
  induction 1 as [|x l Hs IH Hx]; constructor; [done|].
  eapply Forall_impl; [exact Hx|]. intros y. apply string_lt_le.
Qed.

(** A strictly increasing list is determined by its elements. *)
Lemma StronglySorted_lt_ext (l1 l2 : list string) :
  StronglySorted string_lt l1 → StronglySorted string_lt l2 →
  (∀ s, s ∈ l1 ↔ s ∈ l2) → l1 = l2.
Proof.
  intros H1 H2 Hin. apply (StronglySorted_unique String.le);
    [by apply StronglySorted_lt_le..|].
  apply NoDup_Permutation; [by apply StronglySorted_lt_NoDup..|done].
Qed.

Lemma registered_serviceOrder (svc : Service) :
  registered svc ↔ svc ∈ serviceOrder.
Proof.
  unfold registered. rewrite <-elem_of_dom.
  assert (dom serviceInfoByService =@{gset string} list_to_set serviceOrder) as ->.
  { eapply bool_decide_eq_true_1. by vm_compute. }
  by rewrite elem_of_list_to_set.
Qed.

Lemma mergeScopes_ext (it it' : MapRange) (a b a' b' : list string) :
  (∀ s, s ≠ "" → (s ∈ a ∨ s ∈ b) ↔ (s ∈ a' ∨ s ∈ b')) →
  mergeScopes it a b = mergeScopes it' a' b'.
Proof.
  intros H. apply StronglySorted_lt_ext; [apply mergeScopes_strict..|].
  intros s. rewrite !elem_of_mergeScopes. naive_solver.
Qed.

(** X1. [mergeScopes] returns the non-empty strings of its two arguments
    and nothing else, each of them once and in strictly increasing order;
    the result is never longer than the two arguments together. *)
Theorem mergeScopes_sorted_union (it : MapRange) (scopes extras : list string) :
  (∀ s, s ∈ mergeScopes it scopes extras ↔ s ≠ "" ∧ (s ∈ scopes ∨ s ∈ extras))
  ∧ NoDup (mergeScopes it scopes extras)
  ∧ StronglySorted string_lt (mergeScopes it scopes extras)
  ∧ length (mergeScopes it scopes extras) ≤ length scopes + length extras.
Proof.
  split; [intros s; apply elem_of_mergeScopes|].
  split; [apply StronglySorted_lt_NoDup, mergeScopes_strict|].
  split; [apply mergeScopes_strict|].
  rewrite <-length_app. apply submseteq_length, NoDup_submseteq.
  - apply StronglySorted_lt_NoDup, mergeScopes_strict.
  - intros s. rewrite elem_of_mergeScopes, elem_of_app. tauto.
Qed.

(** X2. What [mergeScopes] returns does not depend on the order in which
    Go ranges over the map, nor on the order of its two arguments, nor on
    the order, the repetitions or the empty entries of a list; merging
    nothing gives the empty list. *)
Theorem mergeScopes_order_irrelevant (it it' : MapRange) (a b : list string) :
  mergeScopes it a b = mergeScopes it' a b
  ∧ mergeScopes it a b = mergeScopes it b a
  ∧ mergeScopes it (a ++ a) b = mergeScopes it a b
  ∧ mergeScopes it (reverse a) b = mergeScopes it a b
  ∧ mergeScopes it ("" :: a) b = mergeScopes it a b
  ∧ mergeScopes it [] [] = [].
Proof.
  repeat split; try (apply mergeScopes_ext; intros s Hs;
    rewrite ?elem_of_app, ?elem_of_reverse, ?elem_of_cons; naive_solver).
  apply StronglySorted_lt_ext; [apply mergeScopes_strict|constructor|].
  intros s. rewrite elem_of_mergeScopes, !elem_of_nil. tauto.
Qed.

(** X3. [mergeScopes] is associative, and merging a result once more,
    with nothing, with one of its arguments or with itself, returns the
    same result. *)
Theorem mergeScopes_idempotent_assoc (it : MapRange) (a b c : list string) :
  mergeScopes it (mergeScopes it a b) c = mergeScopes it a (mergeScopes it b c)
  ∧ mergeScopes it (mergeScopes it a b) [] = mergeScopes it a b
  ∧ mergeScopes it (mergeScopes it a b) b = mergeScopes it a b
  ∧ mergeScopes it (mergeScopes it a b) (mergeScopes it a b) = mergeScopes it a b.
Proof.
  repeat split; apply StronglySorted_lt_ext; try apply mergeScopes_strict;
    intros s; rewrite !elem_of_mergeScopes, ?elem_of_nil; tauto.
Qed.

(** ** Scope resolution, continued *)

Lemma first_unregistered (services : list Service) :
  ¬ Forall registered services →
  ∃ pre post x, services = pre ++ x :: post
                ∧ Forall registered pre ∧ serviceInfoByService !! x = None.
Proof.
  induction services as [|svc rest IH]; intros Hn; [by destruct Hn|].
  destruct (serviceInfoByService !! svc) as [info|] eqn:E.
  - destruct IH as (pre & post & x & -> & Hpre & Hx).
    { intros Hall. apply Hn. constructor; [by eexists|done]. }
    exists (svc :: pre), post, x. split; [done|].
    split; [|done]. constructor; [by eexists|done].
  - by exists [], rest, svc.
Qed.

(** X4. [ScopesForServices] and [ScopesForManage] succeed exactly when
    every listed service is registered.  When one of them fails, the
    error is [errUnknownService] and both return a nil slice. *)
Theorem ScopesForServices_succeeds_iff (it : MapRange) (services : list Service) :
  (snd (ScopesForServices it services) = None ↔ Forall registered services)
  ∧ (snd (ScopesForManage it services) = None ↔ Forall registered services)
  ∧ (∀ e, snd (ScopesForServices it services) = Some e
          ∨ snd (ScopesForManage it services) = Some e →
          e = errUnknownService
          ∧ fst (ScopesForServices it services) = []
          ∧ fst (ScopesForManage it services) = []).
Proof.
  destruct (decide (Forall registered services)) as [Hreg|Hn].
  - pose proof (ScopesForServices_registered it services Hreg) as E.
    unfold ScopesForManage. rewrite E. cbn [fst snd].
    split; [done|]. split; [done|]. by intros e [|].
  - destruct (first_unregistered services Hn) as (pre & post & x & -> & Hpre & Hx).
    rewrite (ScopesForServices_unregistered it pre post x Hpre Hx).
    rewrite (ScopesForManage_unregistered it pre post x Hpre Hx). cbn [fst snd].
    split; [split; [done|by intros ?]|]. split; [split; [done|by intros ?]|].
    by intros e [[= <-]|[= <-]].
Qed.

Lemma ScopesForServices_same_elements (it it' : MapRange)
    (services services' : list Service) :
  Forall registered services →
  (∀ svc, svc ∈ services' ↔ svc ∈ services) →
  ScopesForServices it' services' = ScopesForServices it services.
Proof.
  intros Hreg Hsame.
  assert (Forall registered services') as Hreg'.
  { rewrite Forall_forall in Hreg |- *. intros svc Hsvc. by apply Hreg, Hsame. }
  rewrite (ScopesForServices_registered _ _ Hreg),
    (ScopesForServices_registered _ _ Hreg'). f_equal.
  assert (list_to_set (services' ≫= declaredScopes)
          =@{gset string} list_to_set (services ≫= declaredScopes)) as ->.
  { apply set_eq. intros s. rewrite !elem_of_list_to_set, !list_elem_of_bind.
    by setoid_rewrite Hsame. }
  apply range_sorted_eq.
Qed.

Lemma elem_of_ScopesForServices (it : MapRange) (services : list Service) (s : string) :
  Forall registered services →
  s ∈ fst (ScopesForServices it services) ↔ s ∈ services ≫= declaredScopes.
Proof.
  intros Hreg. rewrite (ScopesForServices_registered _ _ Hreg). cbn [fst].
  by rewrite elem_of_range_sorted, elem_of_list_to_set.
Qed.

Lemma ScopesForServices_strict (it : MapRange) (services : list Service) :
  StronglySorted string_lt (fst (ScopesForServices it services)).
Proof.
  destruct (decide (Forall registered services)) as [Hreg|Hn].
  - rewrite (ScopesForServices_registered _ _ Hreg). apply range_sorted_strict.
  - destruct (first_unregistered services Hn) as (pre & post & x & -> & Hpre & Hx).
    rewrite (ScopesForServices_unregistered it pre post x Hpre Hx). constructor.
Qed.

(** X5. For registered services the scopes of a concatenated list are
    the [mergeScopes] of the scopes of its two parts. *)
Theorem ScopesForServices_app (it : MapRange) (l1 l2 : list Service) :
  Forall registered l1 → Forall registered l2 →
  ScopesForServices it (l1 ++ l2)
  = (mergeScopes it (fst (ScopesForServices it l1))
       (fst (ScopesForServices it l2)), None).
Proof.
  intros H1 H2. assert (Forall registered (l1 ++ l2)) as H12 by by apply Forall_app.
  pose proof (ScopesForServices_registered it _ H12) as E.
  pose proof (ScopesForServices_strict it (l1 ++ l2)) as Hs.
  pose proof (elem_of_ScopesForServices it (l1 ++ l2)) as Hin.
  rewrite E in Hs, Hin |- *. cbn [fst] in *. f_equal.
  apply StronglySorted_lt_ext; [done|apply mergeScopes_strict|].
  intros s. rewrite (Hin s H12), elem_of_mergeScopes, bind_app, elem_of_app.
  rewrite !elem_of_ScopesForServices by done.
  split; [|tauto]. intros H. split; [|done].
  destruct H as [H|H]; by apply declaredScopes_plain in H as [? _].
Qed.

Lemma ScopesForServices_app_witness :
  ScopesForServices elementsRange
    ([ServiceGmail; ServiceDrive] ++ [ServiceDrive; ServiceTasks])
  = (mergeScopes elementsRange
       (fst (ScopesForServices elementsRange [ServiceGmail; ServiceDrive]))
       (fst (ScopesForServices elementsRange [ServiceDrive; ServiceTasks])), None).
Proof.
  apply (ScopesForServices_app elementsRange
           [ServiceGmail; ServiceDrive] [ServiceDrive; ServiceTasks]);
    repeat constructor; vm_compute; eauto.
Defined.

(** X6. When the services of a list all occur in a list of registered
    services, [ScopesForServices] succeeds on it and returns a subset of
    the scopes of the larger list, and not more of them. *)
Theorem ScopesForServices_monotone (it : MapRange) (l1 l2 : list Service) :
  Forall registered l2 → l1 ⊆ l2 →
  snd (ScopesForServices it l1) = None
  ∧ fst (ScopesForServices it l1) ⊆ fst (ScopesForServices it l2)
  ∧ length (fst (ScopesForServices it l1))
    ≤ length (fst (ScopesForServices it l2)).
Proof.
  intros H2 Hsub.
  assert (Forall registered l1) as H1.
  { rewrite Forall_forall in H2 |- *. intros svc Hsvc. by apply H2, Hsub. }
  assert (fst (ScopesForServices it l1) ⊆ fst (ScopesForServices it l2)) as Hincl.
  { intros s. rewrite !elem_of_ScopesForServices, !list_elem_of_bind by done.
    intros (svc & ? & ?). exists svc. split; [done|]. by apply Hsub. }
  split; [by rewrite (ScopesForServices_registered _ _ H1)|]. split; [done|].
  apply submseteq_length, NoDup_submseteq; [|done].
  apply StronglySorted_lt_NoDup, ScopesForServices_strict.
Qed.

Lemma ScopesForServices_monotone_witness :
  snd (ScopesForServices elementsRange [ServiceDrive]) = None
  ∧ fst (ScopesForServices elementsRange [ServiceDrive])
    ⊆ fst (ScopesForServices elementsRange [ServiceDocs; ServiceDrive])
  ∧ length (fst (ScopesForServices elementsRange [ServiceDrive]))
    ≤ length (fst (ScopesForServices elementsRange [ServiceDocs; ServiceDrive])).
Proof.
  apply (ScopesForServices_monotone elementsRange
           [ServiceDrive] [ServiceDocs; ServiceDrive]).
  - repeat constructor; vm_compute; eauto.
  - intros svc Hsvc. apply list_elem_of_singleton in Hsvc as ->.
    apply list_elem_of_further, list_elem_of_here.
Defined.

(** X7. For registered services [ScopesForManage] returns the same
    slice for every list with the same services, whatever their order
    and repetitions, and for every order of iteration over the map. *)
Theorem ScopesForManage_order_irrelevant (it it' : MapRange)
    (services services' : list Service) :
  Forall registered services →
  (∀ svc, svc ∈ services' ↔ svc ∈ services) →
  ScopesForManage it' services' = ScopesForManage it services.
Proof.
  intros Hreg Hsame. unfold ScopesForManage.
  rewrite (ScopesForServices_same_elements it it' services services' Hreg Hsame).
  rewrite (ScopesForServices_registered _ _ Hreg). f_equal.
  by apply mergeScopes_ext.
Qed.

Lemma ScopesForManage_order_irrelevant_witness :
  ScopesForManage elementsRange [ServiceDrive; ServiceGmail; ServiceDrive]
  = ScopesForManage elementsRange [ServiceGmail; ServiceDrive].
Proof.
  apply (ScopesForManage_order_irrelevant elementsRange elementsRange
           [ServiceGmail; ServiceDrive] [ServiceDrive; ServiceGmail; ServiceDrive]).
  - repeat constructor; vm_compute; eauto.
  - intros svc. rewrite !elem_of_cons, elem_of_nil. tauto.
Defined.

(** X8. For registered services [ScopesForManage] returns exactly three
    scopes more than [ScopesForServices]: the identity scopes are never
    among the scopes of a service. *)
Theorem ScopesForManage_three_more (it : MapRange) (services : list Service) :
  Forall registered services →
  length (fst (ScopesForManage it services))
  = length (fst (ScopesForServices it services)) + 3.
Proof.
  intros Hreg. unfold ScopesForManage.
  pose proof (ScopesForServices_strict it services) as Hs.
  pose proof (elem_of_ScopesForServices it services) as Hin.
  rewrite (ScopesForServices_registered _ _ Hreg) in Hs, Hin |- *. cbn [fst] in *.
  set (base := sort_Strings _) in *.
  change 3 with (length identityScopes). rewrite <-length_app.
  apply Permutation_length, NoDup_Permutation.
  - apply StronglySorted_lt_NoDup, mergeScopes_strict.
  - apply NoDup_app. split; [by apply StronglySorted_lt_NoDup|]. split.
    + intros s Hsb. apply (Hin s Hreg), declaredScopes_plain in Hsb. tauto.
    + eapply bool_decide_eq_true_1. by vm_compute.
  - intros s. rewrite elem_of_mergeScopes, elem_of_app.
    split; [tauto|]. intros H. split; [|done]. destruct H as [H|H].
    + apply (Hin s Hreg), declaredScopes_plain in H. tauto.
    + intros ->. revert H. unfold identityScopes.
      rewrite !elem_of_cons, elem_of_nil. by intros [|[|[|]]].
Qed.

Lemma ScopesForManage_three_more_witness :
  length (fst (ScopesForManage elementsRange [ServiceGmail; ServiceDrive]))
  = length (fst (ScopesForServices elementsRange [ServiceGmail; ServiceDrive])) + 3.
Proof.
  apply (ScopesForManage_three_more elementsRange [ServiceGmail; ServiceDrive]).
  repeat constructor; vm_compute; eauto.
Defined.

Lemma registry_scopes_NoDup :
  map_Forall (λ (_ : Service) info, NoDup (scopes info)) serviceInfoByService.
Proof. eapply bool_decide_eq_true_1. by vm_compute. Qed.

(** X9. For one registered service [ScopesForServices] returns the
    slice of [Scopes] sorted, a permutation of it (no service declares a
    scope twice); listing the service twice gives the same result. *)
Theorem ScopesForServices_single (it : MapRange) (svc : Service) :
  registered svc →
  ScopesForServices it [svc] = (sort_Strings (fst (Scopes svc)), None)
  ∧ ScopesForServices it [svc; svc] = ScopesForServices it [svc]
  ∧ fst (ScopesForServices it [svc]) ≡ₚ fst (Scopes svc).
Proof.
  intros [info Hinfo].
  assert (Forall registered [svc]) as Hreg by (repeat constructor; by eexists).
  rewrite (Scopes_registered _ _ Hinfo). cbn [fst].
  assert (ScopesForServices it [svc] = (sort_Strings (scopes info), None)) as E.
  { rewrite (ScopesForServices_registered _ _ Hreg). f_equal.
    rewrite foldl_append_one. cbn [app]. apply sort_Strings_order_irrelevant.
    rewrite range_keys_perm. cbn. rewrite app_nil_r.
    unfold declaredScopes. rewrite Hinfo.
    apply elements_list_to_set, (registry_scopes_NoDup svc info Hinfo). }
  split; [done|]. split.
  - apply ScopesForServices_same_elements; [done|]. set_solver.
  - rewrite E. cbn [fst]. apply sort_Strings_perm.
Qed.

Lemma ScopesForServices_single_witness :
  ScopesForServices elementsRange [ServiceDocs]
  = (sort_Strings (fst (Scopes ServiceDocs)), None)
  ∧ ScopesForServices elementsRange [ServiceDocs; ServiceDocs]
    = ScopesForServices elementsRange [ServiceDocs]
  ∧ fst (ScopesForServices elementsRange [ServiceDocs]) ≡ₚ fst (Scopes ServiceDocs).
Proof.
  apply (ScopesForServices_single elementsRange ServiceDocs).
  vm_compute; eauto.
Defined.

(** ** Enumeration and filtering, continued *)

Lemma filter_all {A} (P : A → Prop) `{∀ x, Decision (P x)} (l : list A) :
  Forall P l → filter P l = l.
Proof.
  induction 1 as [|x l Hx _ IH]; [done|].
  by rewrite filter_cons_True, IH.
Qed.

Lemma serviceOrder_registered : Forall registered serviceOrder.
Proof. apply Forall_forall. intros svc. apply registered_serviceOrder. Qed.

Lemma elem_of_filteredServices (f : serviceInfo → bool) (svc : Service) :
  svc ∈ filteredServices (Some f) ↔
  ∃ info, serviceInfoByService !! svc = Some info ∧ f info = true.
Proof.
  rewrite filteredServices_filter, list_elem_of_filter. unfold included. split.
  - intros [H _]. destruct (serviceInfoByService !! svc) as [info|]; [eauto|done].
  - intros (info & E & Hf). rewrite E. split; [done|].
    apply registered_serviceOrder. by eexists.
Qed.

(** X10. Whatever the predicate, [filteredServices] returns a
    subsequence of [AllServices] without repetition, shorter or of the
    same length, made of the identifiers whose record satisfies the
    predicate. *)
Theorem filteredServices_subsequence (f : serviceInfo → bool) :
  filteredServices (Some f) `sublist_of` AllServices
  ∧ NoDup (filteredServices (Some f))
  ∧ (∀ svc, svc ∈ filteredServices (Some f) ↔
       ∃ info, serviceInfoByService !! svc = Some info ∧ f info = true)
  ∧ length (filteredServices (Some f)) ≤ length AllServices.
Proof.
  assert (filteredServices (Some f) `sublist_of` AllServices) as Hsub.
  { rewrite filteredServices_filter. apply sublist_filter. }
  split; [done|]. split; [|split].
  - eapply sublist_NoDup; [|exact Hsub].
    eapply bool_decide_eq_true_1. by vm_compute.
  - apply elem_of_filteredServices.
  - by apply sublist_length.
Qed.

(** X11. With the nil predicate, or with a predicate that accepts every
    record, [filteredServices] returns [AllServices]. *)
Theorem filteredServices_keeps_all (f : serviceInfo → bool) :
  (∀ info, f info = true) →
  filteredServices None = AllServices
  ∧ filteredServices (Some f) = AllServices.
Proof.
  intros Hf. rewrite !filteredServices_filter. unfold AllServices.
  split; apply filter_all; eapply Forall_impl; try apply serviceOrder_registered;
    intros svc [info E]; unfold included; rewrite E; auto.
Qed.

Lemma filteredServices_keeps_all_witness :
  filteredServices None = AllServices
  ∧ filteredServices (Some (λ _, true)) = AllServices.
Proof. apply (filteredServices_keeps_all (λ _, true)). reflexivity. Defined.

(** X12. A predicate and its negation split the services: the two
    results of [filteredServices] have no identifier in common and are
    together a permutation of [AllServices]. *)
Theorem filteredServices_partition (f : serviceInfo → bool) :
  filteredServices (Some f) ++ filteredServices (Some (λ info, negb (f info)))
  ≡ₚ AllServices
  ∧ (∀ svc, svc ∈ filteredServices (Some f) →
            svc ∉ filteredServices (Some (λ info, negb (f info))))
  ∧ length (filteredServices (Some f))
    + length (filteredServices (Some (λ info, negb (f info))))
    = length AllServices.
Proof.
  assert (filteredServices (Some f)
          ++ filteredServices (Some (λ info, negb (f info))) ≡ₚ AllServices) as Hp.
  { rewrite !filteredServices_filter. unfold AllServices.
    pose proof serviceOrder_registered as Hreg. revert Hreg.
    generalize serviceOrder. intros l Hreg.
    assert (filter (λ svc, included (Some (λ info, negb (f info))) svc = true) l
            = filter (λ svc, ¬ included (Some f) svc = true) l) as ->.
    { induction Hreg as [|svc l [info E] _ IH]; [done|].
      rewrite !filter_cons, IH. unfold included. rewrite E.
      destruct (f info); repeat case_decide; naive_solver. }
    apply filter_app_complement. }
  split; [done|]. split.
  - intros svc (info & E & Hf)%elem_of_filteredServices
      (info' & E' & Hf')%elem_of_filteredServices.
    simplify_eq. by rewrite Hf in Hf'.
  - by rewrite <-length_app, Hp.
Qed.

(** ** Views *)

Lemma omap_cons_step {A B} (f : A → option B) (x : A) (l : list A) :
  omap f (x :: l)
  = match f x with Some y => y :: omap f l | None => omap f l end.
Proof. reflexivity. Qed.

Lemma ServicesInfo_loop (acc : list ServiceInfo) (order : list Service) :
  foldl (λ out svc,
    match serviceInfoByService !! svc with
    | None => out
    | Some info =>
      out ++ [{| Info_Service := svc;
                 Info_User := user info;
                 Info_Scopes := [] ++ scopes info;
                 Info_APIs := [] ++ apis info;
                 Info_Note := note info |}]
    end) acc order
  = acc ++ omap (λ svc, serviceView svc <$> serviceInfoByService !! svc) order.
Proof.
  revert acc. induction order as [|svc order IH]; intros acc.
  - cbn. by rewrite app_nil_r.
  - cbn [foldl]. rewrite IH, omap_cons_step.
    destruct (serviceInfoByService !! svc) as [info|];
      cbn [fmap option_fmap option_map app]; [|done].
    by rewrite <-app_assoc.
Qed.

Lemma ServicesInfo_omap :
  ServicesInfo
  = omap (λ svc, serviceView svc <$> serviceInfoByService !! svc) serviceOrder.
Proof. unfold ServicesInfo. by rewrite ServicesInfo_loop. Qed.

(** X13. [ServicesInfo] returns one view per identifier of
    [AllServices], in that order; each view carries the fields of the
    record of its identifier, its scopes are what [Scopes] returns for
    it, and its user flag is set exactly for the identifiers of
    [UserServices]. *)
Theorem ServicesInfo_views :
  Info_Service <$> ServicesInfo = AllServices
  ∧ length ServicesInfo = length AllServices
  ∧ ∀ view, view ∈ ServicesInfo →
      (∃ info, serviceInfoByService !! Info_Service view = Some info
               ∧ view = serviceView (Info_Service view) info)
      ∧ Scopes (Info_Service view) = (Info_Scopes view, None)
      ∧ (Info_User view = true ↔ Info_Service view ∈ UserServices).
Proof.
  rewrite ServicesInfo_omap. unfold AllServices.
  assert (Info_Service <$>
            omap (λ svc, serviceView svc <$> serviceInfoByService !! svc) serviceOrder
          = serviceOrder) as Hmap.
  { pose proof serviceOrder_registered as Hreg. revert Hreg.
    generalize serviceOrder. intros l Hreg.
    induction Hreg as [|svc l [info E] _ IH]; [done|].
    rewrite omap_cons_step, E. cbn [fmap option_fmap option_map].
    rewrite fmap_cons. by rewrite IH. }
  split; [done|]. split; [by rewrite <-Hmap at 2; rewrite length_fmap|].
  intros view (svc & Hsvc & Hview)%list_elem_of_omap.
  destruct (serviceInfoByService !! svc) as [info|] eqn:E; [|done].
  cbn [fmap option_fmap option_map] in Hview. injection Hview as <-.
  cbn [serviceView Info_Service Info_Scopes Info_User].
  split; [by exists info|]. split; [by apply Scopes_registered|].
  unfold UserServices. rewrite elem_of_filteredServices. split.
  - intros Hu. by exists info.
  - intros (info' & E' & Hu). by simplify_eq.
Qed.

(** ** Rendering, continued *)

Lemma string_concat_cons2 (sep x y : string) (l : list string) :
  String.concat sep (x :: y :: l) = x +:+ sep +:+ String.concat sep (y :: l).
Proof. reflexivity. Qed.

Lemma string_concat_empty_app (l1 l2 : list string) :
  String.concat "" (l1 ++ l2) = String.concat "" l1 +:+ String.concat "" l2.
Proof.
  induction l1 as [|x l1 IH]; [done|].
  rewrite <-app_comm_cons, !string_concat_empty_cons, IH.
  by rewrite string_app_assoc.
Qed.

(** X14. [serviceNames] of no service is the empty string, of one
    service its identifier, and of more the first identifier, the
    separator and [serviceNames] of the rest; [UserServiceCSV] is the
    identifiers of [UserServices] separated by commas. *)
Theorem serviceNames_separated (sep : string) :
  serviceNames [] sep = ""
  ∧ (∀ svc, serviceNames [svc] sep = svc)
  ∧ (∀ svc svc' rest,
       serviceNames (svc :: svc' :: rest) sep
       = svc +:+ sep +:+ serviceNames (svc' :: rest) sep)
  ∧ UserServiceCSV = String.concat "," UserServices.
Proof.
  split; [done|]. split; [done|]. split.
  - intros svc svc' rest. by rewrite !serviceNames_concat.
  - unfold UserServiceCSV. by rewrite serviceNames_concat.
Qed.

(** X16. [markdownScopes] is empty exactly for no scope; one scope is
    put between back-ticks, and further scopes follow after [<br>]. *)
Theorem markdownScopes_shape :
  (∀ scopes, markdownScopes scopes = "" ↔ scopes = [])
  ∧ (∀ s, markdownScopes [s] = "`" +:+ s +:+ "`")
  ∧ (∀ s s' rest,
       markdownScopes (s :: s' :: rest)
       = "`" +:+ s +:+ "`<br>" +:+ markdownScopes (s' :: rest)).
Proof.
  split; [|split].
  - intros scopes. split; [|by intros ->].
    rewrite markdownScopes_concat. destruct scopes as [|s [|s' rest]]; [done|..];
      rewrite ?fmap_cons, ?string_concat_cons2; done.
  - intros s. by rewrite markdownScopes_concat.
  - intros s s' rest. rewrite !markdownScopes_concat, !fmap_cons,
      string_concat_cons2. by rewrite !string_app_assoc.
Qed.

Lemma ServicesMarkdown_cons (info : ServiceInfo) (infos : list ServiceInfo) :
  ServicesMarkdown (info :: infos)
  = markdownHeader +:+ String.concat "" (markdownRow <$> info :: infos).
Proof.
  unfold ServicesMarkdown. simpl length. simpl Nat.eqb. cbv iota. cbv zeta.
  by rewrite ServicesMarkdown_rows.
Qed.

(** X17. Appending views to a non-empty list appends their rows to the
    table [ServicesMarkdown] renders: header and earlier rows do not
    change. *)
Theorem ServicesMarkdown_append (info : ServiceInfo) (infos more : list ServiceInfo) :
  ServicesMarkdown (info :: infos ++ more)
  = ServicesMarkdown (info :: infos) +:+ String.concat "" (markdownRow <$> more).
Proof.
  rewrite !ServicesMarkdown_cons, app_comm_cons, fmap_app.
  by rewrite string_concat_empty_app, string_app_assoc.
Qed.

(** X18. [ServicesMarkdown] returns the empty string for the empty
    list only; every other result starts with the two header lines. *)
Theorem ServicesMarkdown_empty_iff :
  (∀ infos, ServicesMarkdown infos = "" ↔ infos = [])
  ∧ (∀ info infos,
       String.prefix markdownHeader (ServicesMarkdown (info :: infos)) = true).
Proof.
  split.
  - intros [|info infos]; [done|]. rewrite ServicesMarkdown_cons. done.
  - intros info infos. rewrite ServicesMarkdown_cons. apply string_prefix_app.
Qed.

Lemma count_byte_app (c : ascii) (s t : string) :
  count_byte c (s +:+ t) = count_byte c s + count_byte c t.
Proof.
  induction s as [|c' s IH]; [done|]. rewrite string_app_cons.
  cbn [count_byte]. rewrite IH. lia.
Qed.

Lemma count_byte_single_line (s : string) :
  single_line s = true → count_byte newline s = 0.
Proof.
  unfold single_line. induction s as [|c s IH]; [done|].
  cbn [string_forallb count_byte]. intros [Hc Hs]%andb_true_iff.
  apply negb_true_iff in Hc. rewrite Hc, IH; done.
Qed.

Lemma single_line_app (s t : string) :
  single_line (s +:+ t) = single_line s && single_line t.
Proof.
  unfold single_line. induction s as [|c s IH]; [done|].
  rewrite string_app_cons. cbn [string_forallb]. by rewrite IH, andb_assoc.
Qed.

Lemma count_byte_concat (sep : string) (l : list string) :
  single_line sep = true → forallb single_line l = true →
  count_byte newline (String.concat sep l) = 0.
Proof.
  intros Hsep. induction l as [|x l IH]; [done|].
  cbn [forallb]. intros [Hx Hl]%andb_true_iff.
  destruct l as [|y l]; [by apply count_byte_single_line|].
  rewrite string_concat_cons2, !count_byte_app, (IH Hl).
  by rewrite !count_byte_single_line.
Qed.

Lemma markdownRow_one_line (info : ServiceInfo) :
  view_single_line info = true → count_byte newline (markdownRow info) = 1.
Proof.
  unfold view_single_line.
  intros [[[Hs Ha]%andb_true_iff Hsc]%andb_true_iff Hn]%andb_true_iff.
  unfold markdownRow. rewrite !count_byte_app.
  rewrite (count_byte_single_line _ Hs), (count_byte_single_line _ Hn).
  rewrite (count_byte_concat ", " _ eq_refl Ha).
  rewrite (count_byte_concat "<br>"); [|done|].
  - by destruct (Info_User info).
  - clear -Hsc. induction (Info_Scopes info) as [|x l IH]; [done|].
    cbn [forallb] in Hsc. apply andb_true_iff in Hsc as [Hx Hl].
    rewrite fmap_cons. cbn [forallb]. rewrite (IH Hl), !single_line_app, Hx. done.
Qed.

(** X19. When no field of the views holds a line feed, the table of
    [ServicesMarkdown] has two header lines and one line per view, each
    ended by a line feed. *)
Theorem ServicesMarkdown_line_count (infos : list ServiceInfo) :
  forallb view_single_line infos = true →
  count_byte newline (ServicesMarkdown infos)
  = match infos with [] => 0 | _ :: _ => 2 + length infos end.
Proof.
  destruct infos as [|info infos]; [done|]. intros Hall.
  rewrite ServicesMarkdown_cons, count_byte_app.
  change (count_byte newline markdownHeader) with 2. f_equal.
  revert Hall. generalize (info :: infos). clear. intros l.
  induction l as [|x l IH]; [done|]. cbn [forallb]. intros [Hx Hl]%andb_true_iff.
  rewrite fmap_cons, string_concat_empty_cons, count_byte_app.
  rewrite (markdownRow_one_line x Hx), (IH Hl). done.
Qed.

Lemma ServicesMarkdown_line_count_witness :
  count_byte newline (ServicesMarkdown ServicesInfo) = 2 + length ServicesInfo.
Proof. apply (ServicesMarkdown_line_count ServicesInfo). reflexivity. Defined.

(** X15. When no identifier contains the byte used as separator,
    [serviceNames] holds the separator once less than there are
    identifiers. *)
Theorem serviceNames_separator_count (c : ascii) (services : list Service) :
  Forall (λ svc : Service, count_byte c svc = 0) services →
  count_byte c (serviceNames services (String c "")) = length services - 1.
Proof.
  rewrite serviceNames_concat.
  induction 1 as [|svc rest Hsvc Hrest IH]; [done|].
  destruct rest as [|svc' rest]; [by rewrite <-Hsvc|].
  rewrite string_concat_cons2, !count_byte_app, Hsvc, IH.
  cbn [count_byte length]. rewrite Ascii.eqb_refl. lia.
Qed.

Lemma serviceNames_separator_count_witness :
  count_byte "," (serviceNames UserServices ",") = length UserServices - 1.
Proof.
  apply (serviceNames_separator_count "," UserServices).
  eapply bool_decide_eq_true_1. by vm_compute.
Defined.

(** ** Parsing, continued *)

Section trimming.
Context `{U : UnicodeTables}.
Local Open Scope Z_scope.

Lemma TrimLeft_loop_fuel (fuel1 fuel2 : nat) (s : string) :
  (String.length s <= fuel1)%nat → (String.length s <= fuel2)%nat →
  TrimLeft_loop fuel1 s = TrimLeft_loop fuel2 s.
Proof.
  revert fuel2 s. induction fuel1 as [|fuel1 IH]; intros fuel2 s H1 H2.
  - apply Nat.le_0_r, string_length_0 in H1 as ->. by destruct fuel2.
  - destruct (decide (s = "")) as [->|Hne]; [by destruct fuel2|].
    destruct fuel2 as [|fuel2]; [by apply Nat.le_0_r, string_length_0 in H2|].
    cbn [TrimLeft_loop]. rewrite (string_length_eqb_0 _ Hne).
    pose proof (utf8_Decode_width s Hne) as Hw.
    destruct (utf8_DecodeRuneInString s) as [c w]. cbn [snd] in Hw.
    destruct (unicode_IsSpace c); [|done].
    pose proof (string_drop_shorter s w Hne (proj1 Hw)). apply IH; lia.
Qed.

Lemma strings_TrimLeftSpace_step (s : string) :
  s ≠ "" →
  strings_TrimLeftSpace s
  = if unicode_IsSpace (fst (utf8_DecodeRuneInString s))
    then strings_TrimLeftSpace (string_drop (snd (utf8_DecodeRuneInString s)) s)
    else s.
Proof.
  intros Hne. unfold strings_TrimLeftSpace at 1.
  destruct (string_length_S s Hne) as [n Hn]. rewrite Hn.
  cbn [TrimLeft_loop]. rewrite (string_length_eqb_0 _ Hne).
  pose proof (utf8_Decode_width s Hne) as Hw.
  destruct (utf8_DecodeRuneInString s) as [c w]. cbn [fst snd] in *.
  destruct (unicode_IsSpace c); [|done].
  pose proof (string_drop_shorter s w Hne (proj1 Hw)).
  apply TrimLeft_loop_fuel; lia.
Qed.

Lemma TrimRight_loop_fuel (fuel1 fuel2 : nat) (s : string) :
  (String.length s <= fuel1)%nat → (String.length s <= fuel2)%nat →
  TrimRight_loop fuel1 s = TrimRight_loop fuel2 s.
Proof.
  revert fuel2 s. induction fuel1 as [|fuel1 IH]; intros fuel2 s H1 H2.
  - apply Nat.le_0_r, string_length_0 in H1 as ->. by destruct fuel2.
  - destruct (decide (s = "")) as [->|Hne]; [by destruct fuel2|].
    destruct fuel2 as [|fuel2]; [by apply Nat.le_0_r, string_length_0 in H2|].
    cbn [TrimRight_loop]. rewrite (string_length_eqb_0 _ Hne).
    pose proof (utf8_DecodeLast_width s Hne) as Hw.
    destruct (utf8_DecodeLastRuneInString s) as [c w]. cbn [snd] in Hw.
    destruct (unicode_IsSpace c); [|done].
    apply IH; rewrite string_take_length; lia.
Qed.

Lemma strings_TrimRightSpace_step (s : string) :
  s ≠ "" →
  strings_TrimRightSpace s
  = if unicode_IsSpace (fst (utf8_DecodeLastRuneInString s))
    then strings_TrimRightSpace
           (string_take (String.length s - snd (utf8_DecodeLastRuneInString s)) s)
    else s.
Proof.
  intros Hne. unfold strings_TrimRightSpace at 1.
  destruct (string_length_S s Hne) as [n Hn]. rewrite Hn at 1.
  cbn [TrimRight_loop]. rewrite (string_length_eqb_0 _ Hne).
  pose proof (utf8_DecodeLast_width s Hne) as Hw.
  destruct (utf8_DecodeLastRuneInString s) as [c w]. cbn [fst snd] in *.
  destruct (unicode_IsSpace c); [|done].
  apply TrimRight_loop_fuel; rewrite ?string_take_length; lia.
Qed.

Lemma ascii_white_IsSpace (c : ascii) :
  byte_val c < RuneSelf → unicode_IsSpace (byte_val c) = ascii_white c.
Proof.
  unfold RuneSelf, unicode_IsSpace, ascii_white, MaxLatin1. intros Hc.
  pose proof (byte_val_range c). zdecide. by rewrite !orb_false_r.
Qed.

Lemma ascii_white_ascii (c : ascii) : ascii_white c = true → byte_val c < RuneSelf.
Proof.
  unfold ascii_white, RuneSelf. intros H.
  apply orb_true_iff in H as [[?%Z.leb_le ?%Z.leb_le]%andb_true_iff|?%Z.eqb_eq]; lia.
Qed.

(** A leading ASCII byte is trimmed exactly when it is white space. *)
Lemma strings_TrimLeftSpace_cons (c : ascii) (s : string) :
  byte_val c < RuneSelf →
  strings_TrimLeftSpace (String c s)
  = if ascii_white c then strings_TrimLeftSpace s else String c s.
Proof.
  intros Hc. rewrite strings_TrimLeftSpace_step by done.
  rewrite (utf8_Decode_ascii c s Hc). cbn [fst snd string_drop].
  by rewrite ascii_white_IsSpace.
Qed.

Lemma utf8_DecodeLast_ascii (s : string) (c : ascii) :
  byte_val c < RuneSelf →
  utf8_DecodeLastRuneInString (s +:+ String c "") = (byte_val c, 1%nat).
Proof.
  intros Hc. unfold utf8_DecodeLastRuneInString. cbv zeta.
  rewrite string_app_length. cbn [String.length].
  rewrite (proj2 (Nat.eqb_neq _ _)) by lia.
  rewrite (byte_at_app_r s (String c "") 0) by lia. rewrite byte_at_0.
  by rewrite (proj2 (Z.ltb_lt _ _)).
Qed.

(** A trailing ASCII byte is trimmed exactly when it is white space. *)
Lemma strings_TrimRightSpace_snoc (s : string) (c : ascii) :
  byte_val c < RuneSelf →
  strings_TrimRightSpace (s +:+ String c "")
  = if ascii_white c then strings_TrimRightSpace s else s +:+ String c "".
Proof.
  intros Hc. rewrite strings_TrimRightSpace_step
    by (destruct s; done).
  rewrite (utf8_DecodeLast_ascii s c Hc). cbn [fst snd].
  rewrite ascii_white_IsSpace by done. destruct (ascii_white c); [|done].
  rewrite string_app_length. cbn [String.length].
  replace (String.length s + 1 - 1)%nat with (String.length s) by lia.
  by rewrite string_take_app.
Qed.

Lemma byte_at_app_l (e rest : string) (i : nat) :
  (i < String.length e)%nat → byte_at (e +:+ rest) i = byte_at e i.
Proof.
  revert i. induction e as [|c e IH]; intros i Hi; [simpl in Hi; lia|].
  rewrite string_app_cons. destruct i as [|i]; [done|].
  rewrite !byte_at_S. apply IH. simpl in Hi. lia.
Qed.

Lemma string_app_prefix_split (s w e rest : string) :
  s +:+ w = e +:+ rest → (String.length e <= String.length s)%nat →
  ∃ r, s = e +:+ r.
Proof.
  revert s. induction e as [|c e IH]; intros s Heq Hlen; [by exists s|].
  destruct s as [|c' s]; [simpl in Hlen; lia|].
  rewrite !string_app_cons in Heq. injection Heq as -> Heq.
  destruct (IH s Heq) as [r ->]; [simpl in Hlen; lia|]. by exists r.
Qed.

Lemma string_drop_app_le (n : nat) (s w : string) :
  (n <= String.length s)%nat → string_drop n (s +:+ w) = string_drop n s +:+ w.
Proof.
  revert s. induction n as [|n IH]; intros s Hn; [done|].
  destruct s as [|c s]; [simpl in Hn; lia|].
  rewrite string_app_cons. cbn [string_drop]. apply IH. simpl in Hn. lia.
Qed.

(** Every byte of an encoding but the first is a continuation byte. *)
Lemma utf8_EncodeRune_continuation (c : rune) (i : nat) :
  utf8_ValidRune c = true →
  (1 <= i < String.length (utf8_EncodeRune c))%nat →
  continuation (byte_at (utf8_EncodeRune c) i).
Proof.
  intros Hv Hi. pose proof (utf8_EncodeRune_shape c Hv) as Hshape.
  cbv zeta in Hshape.
  destruct Hshape as [(Hlen & _)|(_ & _ & Hlast & Hshape)]; [lia|].
  destruct Hshape as [Hlen|[(Hlen & H1)|(Hlen & H1 & H2)]]; rewrite Hlen in *;
    cbn [Nat.sub] in Hlast.
  - by replace i with 1%nat by lia.
  - assert (i = 1 ∨ i = 2)%nat as [->| ->] by lia; done.
  - assert (i = 1 ∨ i = 2 ∨ i = 3)%nat as [->|[->| ->]] by lia; done.
Qed.

(** Bytes appended after [s] do not change its first rune when the first
    of them is an ASCII byte. *)
Lemma utf8_Decode_app_ascii (s w : string) :
  s ≠ "" → (w ≠ "" → byte_at w 0 < RuneSelf) →
  utf8_DecodeRuneInString (s +:+ w) = utf8_DecodeRuneInString s.
Proof.
  intros Hne Hw. destruct (utf8_DecodeRuneInString s) as [c k] eqn:E.
  destruct (decide (k = 1%nat ∧ c = RuneError)) as [[-> ->]|Hvalid].
  - destruct (utf8_DecodeRuneInString (s +:+ w)) as [c' k'] eqn:E'.
    destruct (decide (k' = 1%nat ∧ c' = RuneError)) as [[-> ->]|Hvalid'];
      [done|exfalso].
    destruct (utf8_Encode_Decode (s +:+ w) c' k') as (Hv & Hs & ->);
      [by apply string_app_nonempty|done|
       destruct (decide (k' = 1%nat)); naive_solver|].
    destruct (decide (String.length (utf8_EncodeRune c') <= String.length s)%nat)
      as [Hle|Hgt].
    + destruct (string_app_prefix_split _ _ _ _ Hs Hle) as [r Hr].
      rewrite Hr, utf8_Decode_Encode in E by done. naive_solver.
    + pose proof (utf8_EncodeRune_continuation c' (String.length s) Hv) as Hc.
      assert (1 <= String.length s)%nat by (destruct s; [done|simpl; lia]).
      specialize (Hc ltac:(lia)).
      rewrite <-(byte_at_app_l _ (string_drop (String.length (utf8_EncodeRune c'))
                                   (s +:+ w))), <-Hs in Hc by lia.
      rewrite (byte_at_app_r s w 0) in Hc by lia.
      assert (w ≠ "") as Hwne.
      { intros ->. apply (f_equal String.length) in Hs.
        rewrite !string_app_length in Hs. simpl in Hs. lia. }
      specialize (Hw Hwne). unfold continuation, RuneSelf in *. lia.
  - destruct (utf8_Encode_Decode s c k Hne E) as (Hv & Hs & ->).
    { destruct (decide (k = 1%nat)); naive_solver. }
    rewrite Hs at 1. by rewrite string_app_assoc, utf8_Decode_Encode.
Qed.

Lemma strings_TrimLeftSpace_white (w : string) :
  string_forallb ascii_white w = true → strings_TrimLeftSpace w = "".
Proof.
  induction w as [|c w IH]; [done|]. cbn [string_forallb].
  intros [Hc Hw]%andb_true_iff.
  rewrite strings_TrimLeftSpace_cons by by apply ascii_white_ascii.
  rewrite Hc. by apply IH.
Qed.

Lemma strings_TrimLeftSpace_white_app (ws s : string) :
  string_forallb ascii_white ws = true →
  strings_TrimLeftSpace (ws +:+ s) = strings_TrimLeftSpace s.
Proof.
  induction ws as [|c w IH]; [done|]. cbn [string_forallb].
  intros [Hc Hw]%andb_true_iff. rewrite string_app_cons.
  rewrite strings_TrimLeftSpace_cons by by apply ascii_white_ascii.
  rewrite Hc. by apply IH.
Qed.

Lemma strings_TrimLeftSpace_app_white (s w : string) :
  string_forallb ascii_white w = true →
  strings_TrimLeftSpace (s +:+ w)
  = if decide (strings_TrimLeftSpace s = "") then ""
    else strings_TrimLeftSpace s +:+ w.
Proof.
  intros Hw. remember (String.length s) as n eqn:Hn.
  assert (String.length s <= n)%nat as Hlen by lia. clear Hn.
  revert s Hlen. induction n as [|n IH]; intros s Hlen.
  { apply Nat.le_0_r, string_length_0 in Hlen as ->.
    rewrite string_app_nil_l, strings_TrimLeftSpace_white by done. done. }
  destruct (decide (s = "")) as [->|Hne].
  { rewrite string_app_nil_l, strings_TrimLeftSpace_white by done. done. }
  rewrite (strings_TrimLeftSpace_step (s +:+ w))
    by by apply string_app_nonempty.
  rewrite (strings_TrimLeftSpace_step s) by done.
  rewrite utf8_Decode_app_ascii; [|done|].
  - pose proof (utf8_Decode_width s Hne) as Hk.
    destruct (utf8_DecodeRuneInString s) as [c k]. cbn [fst snd] in *.
    destruct (unicode_IsSpace c).
    + rewrite string_drop_app_le by lia. apply IH.
      pose proof (string_drop_shorter s k Hne (proj1 Hk)). lia.
    + by rewrite decide_False.
  - destruct w as [|c w]; [done|]. intros _. rewrite byte_at_0.
    cbn [string_forallb] in Hw. apply andb_true_iff in Hw as [Hc _].
    by apply ascii_white_ascii.
Qed.

Lemma strings_TrimRightSpace_app_white (s w : string) :
  string_forallb ascii_white w = true →
  strings_TrimRightSpace (s +:+ w) = strings_TrimRightSpace s.
Proof.
  revert s. induction w as [|c w IH]; intros s.
  { by rewrite string_app_nil_r. }
  cbn [string_forallb]. intros [Hc Hw]%andb_true_iff.
  change (String c w) with (String c "" +:+ w).
  rewrite <-string_app_assoc, IH by done.
  rewrite strings_TrimRightSpace_snoc by by apply ascii_white_ascii.
  by rewrite Hc.
Qed.

(** ASCII white space around a string does not change what
    [strings.TrimSpace] returns. *)
Lemma strings_TrimSpace_padding (ws1 s ws2 : string) :
  string_forallb ascii_white ws1 = true →
  string_forallb ascii_white ws2 = true →
  strings_TrimSpace (ws1 +:+ s +:+ ws2) = strings_TrimSpace s.
Proof.
  intros H1 H2. unfold strings_TrimSpace.
  rewrite strings_TrimLeftSpace_white_app, strings_TrimLeftSpace_app_white by done.
  case_decide as E; [by rewrite E|].
  by apply strings_TrimRightSpace_app_white.
Qed.

Lemma ParseService_same_canonical (s s' : string) :
  strings_ToLower (strings_TrimSpace s) = strings_ToLower (strings_TrimSpace s') →
  fst (ParseService s) = fst (ParseService s')
  ∧ (snd (ParseService s) = None ↔ snd (ParseService s') = None)
  ∧ (∀ svc, ParseService s = (svc, None) ↔ ParseService s' = (svc, None)).
Proof.
  intros Heq.
  destruct (serviceInfoByService !! strings_ToLower (strings_TrimSpace s))
    as [info|] eqn:E.
  - rewrite (ParseService_registered s), (ParseService_registered s');
      rewrite <-?Heq, ?E; by eauto.
  - rewrite (ParseService_unregistered s E), (ParseService_unregistered s');
      rewrite <-?Heq, ?E; [|done]. cbn [fst snd].
    split; [done|]. split; [done|]. intros svc. split; intros [=].
Qed.

(** X20. ASCII white space (tab, line feed, vertical tab, form feed,
    carriage return, space) before and after the input does not change
    the identifier [ParseService] returns, nor whether it fails. *)
Theorem ParseService_ignores_ascii_padding (ws1 s ws2 : string) :
  string_forallb ascii_white ws1 = true →
  string_forallb ascii_white ws2 = true →
  fst (ParseService (ws1 +:+ s +:+ ws2)) = fst (ParseService s)
  ∧ (snd (ParseService (ws1 +:+ s +:+ ws2)) = None ↔ snd (ParseService s) = None)
  ∧ (∀ svc, ParseService (ws1 +:+ s +:+ ws2) = (svc, None)
            ↔ ParseService s = (svc, None)).
Proof.
  intros H1 H2. apply ParseService_same_canonical.
  by rewrite strings_TrimSpace_padding.
Qed.
End trimming.

Lemma ParseService_ignores_ascii_padding_witness :
  fst (@ParseService latin1Tables
         (String (byte_of 0x09) " " +:+ "Drive" +:+ String (byte_of 0x0A) ""))
  = fst (@ParseService latin1Tables "Drive")
  ∧ (snd (@ParseService latin1Tables
            (String (byte_of 0x09) " " +:+ "Drive" +:+ String (byte_of 0x0A) ""))
     = None ↔ snd (@ParseService latin1Tables "Drive") = None)
  ∧ (∀ svc,
       @ParseService latin1Tables
         (String (byte_of 0x09) " " +:+ "Drive" +:+ String (byte_of 0x0A) "")
       = (svc, None)
       ↔ @ParseService latin1Tables "Drive" = (svc, None)).
Proof.
  apply (@ParseService_ignores_ascii_padding latin1Tables
           (String (byte_of 0x09) " ") "Drive" (String (byte_of 0x0A) ""));
    reflexivity.
Defined.

Section casing.
Context `{U : UnicodeTables}.
Local Open Scope Z_scope.

Lemma string_snoc_ind (P : string → Prop) :
  P "" → (∀ s c, P s → P (s +:+ String c "")) → ∀ s, P s.
Proof.
  intros Hnil Hsnoc s. remember (String.length s) as n eqn:Hn.
  revert s Hn. induction n as [|n IH]; intros s Hn.
  { symmetry in Hn. by apply string_length_0 in Hn as ->. }
  assert (∃ s' c, s = s' +:+ String c "" ∧ String.length s' = n)
    as (s' & c & -> & Hlen).
  { clear IH Hnil Hsnoc. revert s Hn. induction n as [|n IH]; intros s Hn.
    - destruct s as [|c [|c' s]]; [done| |done]. by exists "", c.
    - destruct s as [|c s]; [done|]. injection Hn as Hn.
      destruct (IH s Hn) as (s' & c' & -> & Hlen).
      exists (String c s'), c'. rewrite string_app_cons. split; [done|].
      simpl. lia. }
  apply Hsnoc, IH. done.
Qed.

Lemma string_forallb_app (p : ascii → bool) (s t : string) :
  string_forallb p (s +:+ t) = string_forallb p s && string_forallb p t.
Proof.
  induction s as [|c s IH]; [done|].
  rewrite string_app_cons. cbn [string_forallb]. by rewrite IH, andb_assoc.
Qed.

Lemma string_map_app (f : ascii → ascii) (s t : string) :
  string_map f (s +:+ t) = string_map f s +:+ string_map f t.
Proof.
  induction s as [|c s IH]; [done|].
  rewrite string_app_cons. cbn [string_map]. by rewrite IH, string_app_cons.
Qed.

Lemma ascii_lower_ascii (c : ascii) :
  byte_val c < RuneSelf → byte_val (ascii_lower c) < RuneSelf.
Proof.
  unfold ascii_lower, RuneSelf. intros Hc.
  destruct ((0x41 <=? byte_val c) && (byte_val c <=? 0x5A)) eqn:E; [|done].
  apply andb_true_iff in E as [?%Z.leb_le ?%Z.leb_le].
  rewrite byte_val_of by lia. lia.
Qed.

Lemma ascii_white_lower (c : ascii) :
  ascii_white (ascii_lower c) = ascii_white c.
Proof.
  unfold ascii_lower.
  destruct ((0x41 <=? byte_val c) && (byte_val c <=? 0x5A)) eqn:E; [|done].
  apply andb_true_iff in E as [?%Z.leb_le ?%Z.leb_le].
  unfold ascii_white. rewrite byte_val_of by lia. by zdecide.
Qed.

Lemma ascii_lower_idem (c : ascii) :
  ascii_lower (ascii_lower c) = ascii_lower c.
Proof.
  unfold ascii_lower at 2 3.
  destruct ((0x41 <=? byte_val c) && (byte_val c <=? 0x5A)) eqn:E.
  - apply andb_true_iff in E as [?%Z.leb_le ?%Z.leb_le].
    unfold ascii_lower. rewrite byte_val_of by lia. by zdecide.
  - unfold ascii_lower. by rewrite E.
Qed.

Lemma isASCII_map_lower (s : string) :
  isASCII s = true → isASCII (string_map ascii_lower s) = true.
Proof.
  unfold isASCII. induction s as [|c s IH]; [done|].
  cbn [string_forallb string_map]. intros [Hc Hs]%andb_true_iff.
  apply andb_true_iff. split; [|by apply IH].
  apply Z.ltb_lt, ascii_lower_ascii. by apply Z.ltb_lt.
Qed.

(** On ASCII strings trimming on the left commutes with lower-casing
    the bytes, and leaves an ASCII string. *)
Lemma strings_TrimLeftSpace_lower (s : string) :
  isASCII s = true →
  strings_TrimLeftSpace (string_map ascii_lower s)
  = string_map ascii_lower (strings_TrimLeftSpace s)
  ∧ isASCII (strings_TrimLeftSpace s) = true.
Proof.
  unfold isASCII. induction s as [|c s IH]; [done|].
  cbn [string_forallb string_map]. intros Hcs.
  pose proof Hcs as [Hc%Z.ltb_lt Hs]%andb_true_iff.
  rewrite !strings_TrimLeftSpace_cons by by try apply ascii_lower_ascii.
  rewrite ascii_white_lower. destruct (ascii_white c); [by apply IH|done].
Qed.

Lemma strings_TrimRightSpace_lower (s : string) :
  isASCII s = true →
  strings_TrimRightSpace (string_map ascii_lower s)
  = string_map ascii_lower (strings_TrimRightSpace s)
  ∧ isASCII (strings_TrimRightSpace s) = true.
Proof.
  unfold isASCII. induction s as [|s c IH] using string_snoc_ind; [done|].
  rewrite string_forallb_app, string_map_app. cbn [string_forallb string_map].
  intros Hsc. pose proof Hsc as [Hs [Hc%Z.ltb_lt _]%andb_true_iff]%andb_true_iff.
  rewrite !strings_TrimRightSpace_snoc by by try apply ascii_lower_ascii.
  rewrite ascii_white_lower. destruct (ascii_white c); [by apply IH|].
  rewrite string_map_app, string_forallb_app. done.
Qed.

(** The canonical form of an ASCII string: lower-case the bytes, trim. *)
Lemma canonical_ascii (s : string) :
  isASCII s = true →
  strings_ToLower (strings_TrimSpace s)
  = strings_TrimSpace (string_map ascii_lower s).
Proof.
  intros Ha. unfold strings_TrimSpace.
  destruct (strings_TrimLeftSpace_lower s Ha) as [El Hl].
  destruct (strings_TrimRightSpace_lower _ Hl) as [Er Hr].
  rewrite strings_ToLower_Map, strings_Map_ToLower_ascii by done.
  by rewrite El, Er.
Qed.

Lemma ParseService_key (svc : Service) :
  svc ∈ serviceOrder → ParseService svc = (svc, None).
Proof.
  unfold serviceOrder. rewrite !elem_of_cons, elem_of_nil.
  intros [->|[->|[->|[->|[->|[->|[->|[->|[->|[->|[]]]]]]]]]]]; by vm_compute.
Qed.

Lemma registry_key_nonempty : serviceInfoByService !! "" = None.
Proof. by vm_compute. Qed.

(** X21. Two ASCII inputs that differ only in the case of their letters
    are parsed alike by [ParseService]: the same identifier, and an error
    for the one exactly when for the other. *)
Theorem ParseService_ascii_case (s s' : string) :
  isASCII s = true → isASCII s' = true →
  string_map ascii_lower s = string_map ascii_lower s' →
  fst (ParseService s) = fst (ParseService s')
  ∧ (snd (ParseService s) = None ↔ snd (ParseService s') = None)
  ∧ (∀ svc, ParseService s = (svc, None) ↔ ParseService s' = (svc, None)).
Proof.
  intros Ha Ha' Heq. apply ParseService_same_canonical.
  by rewrite !canonical_ascii, Heq.
Qed.

(** X22. [ParseService] succeeds exactly when the trimmed, lower-cased
    input is registered, and exactly then its identifier is not empty;
    the identifier is empty or one of [AllServices]; an error wraps
    [errUnknownService] without being it, and has another message. *)
Theorem ParseService_outcome (s : string) :
  (snd (ParseService s) = None
   ↔ registered (strings_ToLower (strings_TrimSpace s)))
  ∧ (snd (ParseService s) = None ↔ fst (ParseService s) ≠ "")
  ∧ (fst (ParseService s) = "" ∨ fst (ParseService s) ∈ AllServices)
  ∧ (∀ e, snd (ParseService s) = Some e →
          errors_Is e errUnknownService = true ∧ e ≠ errUnknownService
          ∧ Error e ≠ Error errUnknownService).
Proof.
  destruct (serviceInfoByService !! strings_ToLower (strings_TrimSpace s))
    as [info|] eqn:E.
  - rewrite (ParseService_registered s) by by eexists. cbn [fst snd].
    split; [split; [by eexists|done]|]. split; [|split; [|done]].
    + split; [|done]. intros _ Hempty. rewrite Hempty in E.
      by rewrite registry_key_nonempty in E.
    + right. apply registered_serviceOrder. by eexists.
  - rewrite (ParseService_unregistered s E). cbn [fst snd].
    split; [split; [done|]|].
    { intros [info Hinfo]. by rewrite E in Hinfo. }
    split; [done|]. split; [by left|].
    intros e [= <-]. split; [done|]. split; [done|]. cbn [Error].
    unfold errUnknownService, errors_New. cbn [Error].
    intros Heq. apply (f_equal String.length) in Heq.
    rewrite !string_app_length in Heq. simpl in Heq. lia.
Qed.

(** X23. An identifier returned by [ParseService] is the trimmed,
    lower-cased input and one of [AllServices]; it parses to itself, and
    [Scopes], [ScopesForServices] and [ScopesForManage] succeed on it. *)
Theorem ParseService_then_Scopes (it : MapRange) (s : string) (svc : Service) :
  ParseService s = (svc, None) →
  svc = strings_ToLower (strings_TrimSpace s)
  ∧ svc ∈ AllServices
  ∧ ParseService svc = (svc, None)
  ∧ Scopes svc = (declaredScopes svc, None)
  ∧ snd (ScopesForServices it [svc]) = None
  ∧ snd (ScopesForManage it [svc]) = None.
Proof.
  intros Hparse.
  destruct (serviceInfoByService !! strings_ToLower (strings_TrimSpace s))
    as [info|] eqn:E.
  2: { by rewrite (ParseService_unregistered s E) in Hparse. }
  rewrite (ParseService_registered s) in Hparse by by eexists.
  injection Hparse as <-. set (svc := strings_ToLower _) in *.
  assert (registered svc) as Hreg by by eexists.
  assert (Forall registered [svc]) as Hall by by repeat constructor.
  split; [done|]. split; [by apply registered_serviceOrder|].
  split; [by apply ParseService_key, registered_serviceOrder|].
  split; [unfold declaredScopes; rewrite E; by apply Scopes_registered|].
  unfold ScopesForManage.
  by rewrite (ScopesForServices_registered it _ Hall).
Qed.
End casing.

Lemma ParseService_ascii_case_witness :
  fst (@ParseService latin1Tables "GMAIL") = fst (@ParseService latin1Tables "gMaIl")
  ∧ (snd (@ParseService latin1Tables "GMAIL") = None
     ↔ snd (@ParseService latin1Tables "gMaIl") = None)
  ∧ (∀ svc, @ParseService latin1Tables "GMAIL" = (svc, None)
            ↔ @ParseService latin1Tables "gMaIl" = (svc, None)).
Proof.
  apply (@ParseService_ascii_case latin1Tables "GMAIL" "gMaIl"); reflexivity.
Defined.

Lemma ParseService_then_Scopes_witness :
  ServiceGmail = @strings_ToLower latin1Tables (strings_TrimSpace " GMAIL ")
  ∧ ServiceGmail ∈ AllServices
  ∧ @ParseService latin1Tables ServiceGmail = (ServiceGmail, None)
  ∧ Scopes ServiceGmail = (declaredScopes ServiceGmail, None)
  ∧ snd (ScopesForServices elementsRange [ServiceGmail]) = None
  ∧ snd (ScopesForManage elementsRange [ServiceGmail]) = None.
Proof.
  apply (@ParseService_then_Scopes latin1Tables elementsRange " GMAIL " ServiceGmail).
  reflexivity.
Defined.
